(** * Watson: a verification model of [watson/core.py]

    The development follows the module top to bottom: the project
    directory search, the build runner, the notification text, the
    event scheduler with its worker thread, the project watcher and the
    server registry.  Python exceptions are values of [Exn].  Code that
    mutates objects passes the state explicitly and returns it next to
    its result or exception: the state reached before a raise is kept,
    as object mutation is.  The three threads of the daemon (observer,
    remote procedure listener, scheduler worker) are interleaved twice:
    at the level of whole method calls and of single moves of the
    worker through its loop ([step]), which is how the server behaves
    when its callers take turns; and with the calls of
    [schedule_build] split at the points where a thread can be
    preempted ([daemon_step]), which is what the program allows. *)

From stdpp Require Import gmap strings list fin_maps.
From Stdlib Require Import Ascii ZArith Lia Sorted.

(** ** Exceptions *)

Inductive Exn : Type :=
| ValueError                      (* list.remove(x): x not in list *)
| AttributeError                  (* attribute access on None *)
| KeyError                        (* dict[key]: key missing *)
| OSError                         (* os.listdir(d): d cannot be listed *)
| WatsonError (msg : string).

Global Instance Exn_eq_dec : EqDecision Exn.
Proof. solve_decision. Defined.

(** ** Python string helpers used by the module *)

Definition LF : ascii := "010"%char.
Definition NL : string := String LF "".

(** [str.isspace] on one byte: space, tab, newline, carriage return,
    vertical tab, form feed. *)
Definition isspace (c : ascii) : bool :=
  let n := nat_of_ascii c in
  (Nat.eqb n 32 || (Nat.leb 9 n && Nat.leb n 13))%bool.

Fixpoint lstrip (s : string) : string :=
  match s with
  | EmptyString => EmptyString
  | String c s' => if isspace c then lstrip s' else s
  end.

Fixpoint rstrip (s : string) : string :=
  match s with
  | EmptyString => EmptyString
  | String c s' =>
      match rstrip s' with
      | EmptyString => if isspace c then EmptyString else String c EmptyString
      | r => String c r
      end
  end.

(** [s.strip()] *)
Definition strip (s : string) : string := rstrip (lstrip s).

(** [sep.join(parts)] *)
Fixpoint join (sep : string) (parts : list string) : string :=
  match parts with
  | [] => ""
  | [p] => p
  | p :: rest => p +:+ sep +:+ join sep rest
  end.

(** Truth value of a Python string: the empty string is false. *)
Definition truthy (s : string) : bool :=
  match s with EmptyString => false | _ => true end.

(** ** The build runner: [ProjectBuilder] *)

(** What [operations.local(command, capture=True)] returns: the captured
    standard output with the attributes the module reads. *)
Record LocalResult : Type := mkLocalResult {
  stdout : string;
  stderr : string;
  succeeded : bool
}.

Global Instance LocalResult_eq_dec : EqDecision LocalResult.
Proof. solve_decision. Defined.

(** A build status is the pair [(succeeded, result)]; [result] is
    [None] when no command was run. *)
Definition Status : Type := bool * option LocalResult.

Section Builder.
(** The machine the commands act on, and fabric's [local] run inside
    [lcd(working_dir)] under [warn_only]: a failing command does not
    raise, it comes back with [succeeded = false]. *)
Variable World : Type.
Variable local : string -> string -> World -> LocalResult * World.

(** The [for command in script] loop, entered with the current values
    of [succeeded] and [result]. *)
Fixpoint script_loop (working_dir : string) (script : list string)
    (succeeded0 : bool) (result0 : option LocalResult) (w : World)
    : Status * World :=
  match script with
  | [] => ((succeeded0, result0), w)
  | command :: rest =>
      let '(result, w') := local working_dir command w in
      let succeeded1 := (succeeded0 && succeeded result)%bool in
      if negb succeeded1 then ((succeeded1, Some result), w')
      else script_loop working_dir rest succeeded1 (Some result) w'
  end.

Definition _execute_script_internal (working_dir : string)
    (script : list string) (w : World) : Status * World :=
  script_loop working_dir script true None w.

Definition execute_script (working_dir : string) (script : list string)
    (w : World) : Status * World :=
  _execute_script_internal working_dir script w.

(** Running every command of a list, in order, and collecting the
    results: the yardstick the runner is compared with. *)
Fixpoint run_all (working_dir : string) (cmds : list string) (w : World)
    : list LocalResult * World :=
  match cmds with
  | [] => ([], w)
  | c :: rest =>
      let '(r, w') := local working_dir c w in
      let '(rs, w'') := run_all working_dir rest w' in
      (r :: rs, w'')
  end.

End Builder.

Arguments script_loop {World} local working_dir script succeeded0 result0 w.
Arguments _execute_script_internal {World} local working_dir script w.
Arguments execute_script {World} local working_dir script w.
Arguments run_all {World} local working_dir cmds w.

(** ** Notification text: lines 186-194 of [_show_notification] *)

Record Notification : Type := mkNotification {
  summary : string;
  body : string
}.

Global Instance Notification_eq_dec : EqDecision Notification.
Proof. solve_decision. Defined.

(** The arguments of [self._notification.update(...)] for a status whose
    result is an object: [output] is the two stripped streams joined by
    a newline, and the failure branch passes [output or "No output"]. *)
Definition notification_update (name : string) (succeeed : bool)
    (result : LocalResult) : Notification :=
  let output := join NL [strip (stdout result); strip (stderr result)] in
  if negb succeeed then
    mkNotification (name +:+ " failed")
                   (if truthy output then output else "No output")
  else
    mkNotification (name +:+ " back to normal") output.

(** ** Project names and the project directory search *)

Definition CONFIG_FILENAME : string := ".watson.yaml".
Definition DEFAULT_PROJECT_INDICATORS : list string :=
  [CONFIG_FILENAME; ".vip"; "setup.py"].

(** [p.rfind(c)]: index of the last occurrence, [-1] when there is none. *)
Fixpoint rfind (c : ascii) (p : string) : Z :=
  match p with
  | EmptyString => (-1)%Z
  | String a rest =>
      let r := rfind c rest in
      if (0 <=? r)%Z then (r + 1)%Z
      else if decide (a = c) then 0%Z else (-1)%Z
  end.

(** [p[i:]] for [0 <= i]. *)
Fixpoint string_from (i : nat) (p : string) : string :=
  match i, p with
  | O, _ => p
  | S n, EmptyString => EmptyString
  | S n, String _ rest => string_from n rest
  end.

(** [posixpath.basename], which is what [path.path(p).name] returns. *)
Definition basename (p : string) : string :=
  let i := (rfind "/"%char p + 1)%Z in
  string_from (Z.to_nat i) p.

Definition get_project_name (working_dir : string) : string :=
  basename working_dir.

(** An absolute, normalised path is the list of its components, the
    outermost first; the filesystem root is the empty list and is its
    own parent, as [path.path('/').parent] is. *)
Definition Path : Type := list string.

Definition parent (directory : Path) : Path := removelast directory.

(** Result of running the [while] loop with a bound on its iterations. *)
Inductive LoopExit : Type :=
| Returned (directory : Path)     (* [return directory] inside the loop *)
| FellThrough                     (* the loop condition became false *)
| ListingFailed                   (* [os.listdir] raised inside the loop *)
| OutOfFuel.

Section FindProject.
(** [path.path(start).abspath()] and [os.listdir] on the directory
    tree being walked.  [os.listdir] gives the entries of a directory,
    or raises [OSError] when the path does not exist, is not a
    directory or may not be read: [listdir d = None] then.  Nothing in
    the function catches the exception. *)
Variable abspath : string -> Path.
Variable listdir : Path -> option (list string).

(** The [while directory.parent != directory] loop.  The second
    component lists the directories handed to [os.listdir], in order,
    the one whose listing failed included. *)
Fixpoint search_up (fuel : nat) (look_for : gset string) (directory : Path)
    : LoopExit * list Path :=
  match fuel with
  | O => (OutOfFuel, [])
  | S fuel' =>
      if decide (parent directory <> directory) then
        match listdir directory with
        | None => (ListingFailed, [directory])
        | Some items =>
            if existsb (fun i => bool_decide (i ∈ look_for)) items then
              (Returned directory, [directory])
            else
              let '(r, listed) := search_up fuel' look_for (parent directory) in
              (r, directory :: listed)
        end
      else (FellThrough, [])
  end.

(** [set(look_for or DEFAULT_PROJECT_INDICATORS)]: [None] and the
    empty list both select the defaults. *)
Definition indicators (look_for : option (list string)) : gset string :=
  match look_for with
  | None | Some [] => list_to_set DEFAULT_PROJECT_INDICATORS
  | Some l => list_to_set l
  end.

Definition not_a_project (start : string) : Exn :=
  WatsonError (start +:+ " does not look like a project subdirectory").

(** [find_project_directory(start, look_for)], with the directories it
    listed.  [None] would mean the loop bound was too small; it never
    is (see [find_project_directory_total]). *)
Definition find_project_directory_listing (start : string)
    (look_for : option (list string))
    : option (Exn + Path) * list Path :=
  let look_for := indicators look_for in
  let directory := abspath start in
  match search_up (S (length directory)) look_for directory with
  | (Returned d, listed) => (Some (inr d), listed)
  | (FellThrough, listed) => (Some (inl (not_a_project start)), listed)
  | (ListingFailed, listed) => (Some (inl OSError), listed)
  | (OutOfFuel, listed) => (None, listed)
  end.

Definition find_project_directory (start : string)
    (look_for : option (list string)) : option (Exn + Path) :=
  (find_project_directory_listing start look_for).1.

End FindProject.


(** ** The standard library scheduler behind [EventScheduler]

    [sched.scheduler] keeps a heap of [Event] tuples.  A callback is
    identified by the registry key of the watcher whose bound [build]
    method it is; the argument list is always empty. *)

Record Event : Type := mkEvent {
  time : Z;
  priority : Z;
  action : string
}.

Global Instance Event_eq_dec : EqDecision Event.
Proof. solve_decision. Defined.

(** Tuple order of events on the fields the module ever varies. *)
Definition event_ltb (a b : Event) : bool :=
  ((time a <? time b)%Z
   || ((time a =? time b)%Z && (priority a <? priority b)%Z))%bool.

(** [q[0]]: a least event of the heap.  The queue is kept in arrival
    order.  Between events that agree on time and priority Python goes
    on to compare the bound methods, an arbitrary but fixed order; here
    the earlier arrival is taken.  Nothing below depends on which of
    two such events comes first. *)
Fixpoint heap_top (q : list Event) : option Event :=
  match q with
  | [] => None
  | e :: rest =>
      match heap_top rest with
      | Some m => if event_ltb m e then Some m else Some e
      | None => Some e
      end
  end.

(** [list.remove(x)]: drops the first element equal to [x]; [None]
    stands for the [ValueError] raised when there is none. *)
Fixpoint remove_first (x : Event) (q : list Event) : option (list Event) :=
  match q with
  | [] => None
  | e :: rest =>
      if decide (e = x) then Some rest
      else match remove_first x rest with
           | Some rest' => Some (e :: rest')
           | None => None
           end
  end.

(** [heapq.heappop]: the queue without its top. *)
Definition heappop (q : list Event) : list Event :=
  match heap_top q with
  | Some e => default q (remove_first e q)
  | None => q
  end.

(** Where the worker thread stands in [EventScheduler.run]. *)
Inductive WorkerPC : Type :=
| AtWhile                 (* about to test [while not self.is_finished] *)
| InRun                   (* in [self._sched.run()], at its [while q] *)
| Calling (e : Event)     (* [e] popped, its action being called *)
| AfterRun                (* [sched.run()] returned, taking the condition *)
| Waiting                 (* in [self._condition.wait()] *)
| Exited                  (* [self._join_event] set, [run] returned *)
| Died.                   (* an action raised out of [run] *)

Global Instance WorkerPC_eq_dec : EqDecision WorkerPC.
Proof. solve_decision. Defined.

Record EventScheduler : Type := mkEventScheduler {
  _queue : list Event;            (* self._sched._queue *)
  _is_finished : bool;
  _join_event : bool;
  worker : WorkerPC;
  now : Z                         (* what time.time() returns *)
}.

Global Instance EventScheduler_eq_dec : EqDecision EventScheduler.
Proof. solve_decision. Defined.

Definition set_queue (q : list Event) (s : EventScheduler) : EventScheduler :=
  mkEventScheduler q (_is_finished s) (_join_event s) (worker s) (now s).
Definition set_worker (pc : WorkerPC) (s : EventScheduler) : EventScheduler :=
  mkEventScheduler (_queue s) (_is_finished s) (_join_event s) pc (now s).
Definition set_now (t : Z) (s : EventScheduler) : EventScheduler :=
  mkEventScheduler (_queue s) (_is_finished s) (_join_event s) (worker s) t.

(** [EventScheduler()] followed by [start()]. *)
Definition EventScheduler_init (t0 : Z) : EventScheduler :=
  mkEventScheduler [] false false AtWhile t0.

(** [self._condition.notify()]: a worker blocked in [wait()] resumes at
    the loop test; otherwise the notification is lost. *)
Definition notify (s : EventScheduler) : EventScheduler :=
  match worker s with
  | Waiting => set_worker AtWhile s
  | _ => s
  end.

(** [self._sched.cancel(event)] *)
Definition cancel (event : Event) (s : EventScheduler)
    : Exn + EventScheduler :=
  match remove_first event (_queue s) with
  | Some q => inr (set_queue q s)
  | None => inl ValueError
  end.

(** [self._sched.enter(delay, priority, action, [])] *)
Definition enter (delay prio : Z) (act : string) (s : EventScheduler)
    : Event * EventScheduler :=
  let event := mkEvent (now s + delay) prio act in
  (event, set_queue (_queue s ++ [event]) s).

(** [EventScheduler.schedule(event, delay, function)], run under the
    condition.  The scheduler object is mutated in place, so the state
    reached before a raise is kept. *)
Definition schedule (event : option Event) (delay : Z) (function : string)
    (s : EventScheduler) : (Exn + Event) * EventScheduler :=
  let s1 := notify s in
  match event with
  | Some ev =>
      match cancel ev s1 with
      | inr s2 => let '(e, s3) := enter delay 1 function s2 in (inr e, s3)
      | inl exn => (inl exn, s1)
      end
  | None => let '(e, s3) := enter delay 1 function s1 in (inr e, s3)
  end.

(** [EventScheduler.stop()] *)
Definition stop (s : EventScheduler) : EventScheduler :=
  notify (mkEventScheduler (_queue s) true (_join_event s) (worker s) (now s)).

(** One step of the worker thread through [run] and [sched.run]; [None]
    when the thread cannot move by itself (blocked in [wait], inside an
    action, or gone).  Sleeping until the top event is due is one step
    that moves the clock to that time. *)
Definition worker_step (s : EventScheduler) : option EventScheduler :=
  match worker s with
  | AtWhile =>
      if _is_finished s
      then Some (mkEventScheduler (_queue s) (_is_finished s) true Exited (now s))
      else Some (set_worker InRun s)
  | InRun =>
      match heap_top (_queue s) with
      | None => Some (set_worker AfterRun s)
      | Some e =>
          if (now s <? time e)%Z then Some (set_now (time e) s)
          else Some (set_worker (Calling e) (set_queue (heappop (_queue s)) s))
      end
  | AfterRun =>
      if negb (_is_finished s) then Some (set_worker Waiting s)
      else Some (set_worker AtWhile s)
  | Calling _ | Waiting | Exited | Died => None
  end.

(** The action called by the worker came back: normally (then
    [delayfunc(0)] and the loop goes on) or with an exception, which
    nothing in [run] catches. *)
Definition action_done (raised : bool) (s : EventScheduler) : EventScheduler :=
  match worker s with
  | Calling _ => set_worker (if raised then Died else InRun) s
  | _ => s
  end.

(** The worker running alone for at most [fuel] steps, with the actions
    it called, oldest first.  [raises e] tells whether the action of
    [e] raises.  The run stops early when the worker blocks or is gone. *)
Fixpoint worker_run (raises : Event -> bool) (fuel : nat) (s : EventScheduler)
    : EventScheduler * list Event :=
  match fuel with
  | O => (s, [])
  | S fuel' =>
      match worker s with
      | Calling e =>
          let '(s', called) := worker_run raises fuel' (action_done (raises e) s) in
          (s', e :: called)
      | _ =>
          match worker_step s with
          | Some s1 => worker_run raises fuel' s1
          | None => (s, [])
          end
      end
  end.


(** [EventScheduler.join()] returns once [_join_event] is set. *)
Definition joined (s : EventScheduler) : bool := _join_event s.

(** ** The file system observer, as far as the module uses it *)

Record ObservedWatch : Type := mkObservedWatch {
  watch_path : string;
  is_recursive : bool
}.

Global Instance ObservedWatch_eq_dec : EqDecision ObservedWatch.
Proof. solve_decision. Defined.

(** The observer holds, per watch, the handler to call; a handler is a
    watcher, named by its registry key. *)
Record Observer : Type := mkObserver {
  _handlers : list (ObservedWatch * string);
  observer_stopped : bool
}.

(** [observer.schedule(handler, path=path, recursive=True)] *)
Definition observer_schedule (handler path : string) (o : Observer)
    : ObservedWatch * Observer :=
  let watch := mkObservedWatch path true in
  (watch, mkObserver (_handlers o ++ [(watch, handler)]) (observer_stopped o)).

(** [observer.unschedule(watch)] *)
Definition observer_unschedule (watch : ObservedWatch) (o : Observer) : Observer :=
  mkObserver (filter (fun wh => wh.1 <> watch) (_handlers o)) (observer_stopped o).

Definition observer_stop (o : Observer) : Observer :=
  mkObserver (_handlers o) true.

(** ** [ProjectWatcher] and [WatsonServer] *)

Section Server.
(** [config.ProjectConfig] lives outside [core.py]: the constructor
    and the two lookups the module performs on it are parameters. *)
Variables UserConfig Config : Type.
Variable ProjectConfig : UserConfig -> Config.
Variable config_script : Config -> list string.        (* config['script'] *)
Variable config_build_timeout : Config -> Z.           (* config['build_timeout'] *)

Variable World : Type.
Variable local : string -> string -> World -> LocalResult * World.

(** The references [_scheduler], [_builder] and [_observer] point at
    the server's own objects, which live in [WatsonServer] below. *)
Record ProjectWatcher : Type := mkProjectWatcher {
  _event : option Event;
  name : string;
  working_dir : string;
  _config : Config;
  _last_status : option Status;      (* [None] is the initial (None, None) *)
  _notification : Notification;
  _watch : ObservedWatch
}.

Definition set_event (ev : option Event) (w : ProjectWatcher) : ProjectWatcher :=
  mkProjectWatcher ev (name w) (working_dir w) (_config w)
                   (_last_status w) (_notification w) (_watch w).

(** [ProjectWatcher.script] *)
Definition script (w : ProjectWatcher) : list string :=
  config_script (_config w).

(** [ProjectWatcher.set_config(user_config)] *)
Definition set_config (user_config : UserConfig) (w : ProjectWatcher)
    : ProjectWatcher :=
  mkProjectWatcher (_event w) (name w) (working_dir w)
                   (ProjectConfig user_config)
                   (_last_status w) (_notification w) (_watch w).

(** [ProjectWatcher(config, working_dir, scheduler, builder, observer)].
    The notification starts with an empty summary; its timeout and the
    exit hook that closes it are left out. *)
Definition ProjectWatcher_init (config : UserConfig) (wd : string)
    (o : Observer) : ProjectWatcher * Observer :=
  let nm := get_project_name wd in
  let '(watch, o') := observer_schedule nm wd o in
  (mkProjectWatcher None nm wd (ProjectConfig config) None
                    (mkNotification "" "") watch,
   o').

(** [ProjectWatcher.shutdown(observer)] *)
Definition watcher_shutdown (w : ProjectWatcher) (o : Observer) : Observer :=
  observer_unschedule (_watch w) o.

(** [ProjectWatcher.schedule_build(timeout)], run from its first line
    to its last with no other thread in between; the callback handed to
    the scheduler is [self.build].  When [schedule] raises, the
    assignment to [self._event] does not happen.  The same call, one
    move at a time, is [schedule_build_move] below; [call_runs] shows
    that the moves made in a row do what this definition does. *)
Definition schedule_build (timeout : option Z) (w : ProjectWatcher)
    (sch : EventScheduler) : (Exn + unit) * ProjectWatcher * EventScheduler :=
  let timeout :=
    match timeout with
    | None => config_build_timeout (_config w)
    | Some t => t
    end in
  match schedule (_event w) timeout (name w) sch with
  | (inr ev, sch') => (inr tt, set_event (Some ev) w, sch')
  | (inl exn, sch') => (inl exn, w, sch')
  end.

(** [ProjectWatcher._show_notification(status)], with the notification
    it puts on screen. *)
Definition _show_notification (status : Status) (w : ProjectWatcher)
    : Exn + (ProjectWatcher * Notification) :=
  let '(succeeed, result) := status in
  match result with
  | None => inl AttributeError          (* [result.stdout] on [None] *)
  | Some r =>
      let n := notification_update (name w) succeeed r in
      inr (mkProjectWatcher (_event w) (name w) (working_dir w) (_config w)
                            (Some status) n (_watch w),
           n)
  end.

(** [ProjectWatcher.build()] *)
Definition build (w : ProjectWatcher) (wld : World)
    : (Exn + Notification) * ProjectWatcher * World :=
  let w1 := set_event None w in
  let '(status, wld') := execute_script local (working_dir w1) (script w1) wld in
  match _show_notification status w1 with
  | inr (w2, n) => (inr n, w2, wld')
  | inl exn => (inl exn, w1, wld')
  end.

Record WatsonServer : Type := mkWatsonServer {
  _projects : gmap string ProjectWatcher;
  _scheduler : EventScheduler;
  _observer : Observer;
  api_closed : bool;                 (* [self._api.server_close()] done *)
  world : World;                     (* what the build commands act on *)
  displayed : list Notification      (* notifications shown, oldest first *)
}.

Definition set_projects (m : gmap string ProjectWatcher) (s : WatsonServer) :=
  mkWatsonServer m (_scheduler s) (_observer s) (api_closed s) (world s) (displayed s).
Definition set_scheduler (sch : EventScheduler) (s : WatsonServer) :=
  mkWatsonServer (_projects s) sch (_observer s) (api_closed s) (world s) (displayed s).
Definition set_observer (o : Observer) (s : WatsonServer) :=
  mkWatsonServer (_projects s) (_scheduler s) o (api_closed s) (world s) (displayed s).

(** [WatsonServer()] on a machine in state [w0] at time [t0]. *)
Definition WatsonServer_init (t0 : Z) (w0 : World) : WatsonServer :=
  mkWatsonServer ∅ (EventScheduler_init t0) (mkObserver [] false) false w0 [].

(** [self._projects[key].schedule_build(timeout)] *)
Definition project_schedule_build (key : string) (timeout : option Z)
    (s : WatsonServer) : (Exn + unit) * WatsonServer :=
  match _projects s !! key with
  | None => (inl KeyError, s)
  | Some w =>
      let '(r, w', sch') := schedule_build timeout w (_scheduler s) in
      (r, set_scheduler sch' (set_projects (<[key := w']> (_projects s)) s))
  end.

(** [self._projects[key].on_any_event(event)], called by the observer. *)
Definition on_any_event (key : string) (s : WatsonServer)
    : (Exn + unit) * WatsonServer :=
  project_schedule_build key None s.

(** [self._projects[key].set_config(config)] *)
Definition project_set_config (key : string) (config : UserConfig)
    (s : WatsonServer) : (Exn + unit) * WatsonServer :=
  match _projects s !! key with
  | None => (inl KeyError, s)
  | Some w => (inr tt, set_projects (<[key := set_config config w]> (_projects s)) s)
  end.

(** [WatsonServer.add_project(working_dir, config)] *)
Definition add_project (working_dir : string) (config : UserConfig)
    (s : WatsonServer) : (Exn + unit) * WatsonServer :=
  let project_name := get_project_name working_dir in
  let s1 :=
    match _projects s !! project_name with
    | None =>
        let '(w, o) := ProjectWatcher_init config working_dir (_observer s) in
        set_observer o (set_projects (<[project_name := w]> (_projects s)) s)
    | Some w =>
        set_projects (<[project_name := set_config config w]> (_projects s)) s
    end in
  project_schedule_build project_name (Some 0%Z) s1.

(** [add_project] up to its last line: the registration, or the new
    configuration, before [schedule_build(0)] is called. *)
Definition add_project_register (working_dir : string) (config : UserConfig)
    (s : WatsonServer) : WatsonServer :=
  let project_name := get_project_name working_dir in
  match _projects s !! project_name with
  | None =>
      let '(w, o) := ProjectWatcher_init config working_dir (_observer s) in
      set_observer o (set_projects (<[project_name := w]> (_projects s)) s)
  | Some w =>
      set_projects (<[project_name := set_config config w]> (_projects s)) s
  end.

(** The worker calls the action of a popped event: the [build] of the
    watcher the bound method belongs to.  The watcher is found through
    the registry; the first branch is never taken, since every timer
    belongs to a registered watcher ([inv_queue] below). *)
Definition call_action (e : Event) (s : WatsonServer) : WatsonServer :=
  match _projects s !! action e with
  | None => set_scheduler (action_done true (_scheduler s)) s
  | Some w =>
      let '(r, w', wld') := build w (world s) in
      mkWatsonServer (<[action e := w']> (_projects s))
        (action_done (if r is inl _ then true else false) (_scheduler s))
        (_observer s) (api_closed s) wld'
        (displayed s ++ (if r is inr n then [n] else []))
  end.

(** One step of the worker thread inside the server. *)
Definition server_worker_step (s : WatsonServer) : option WatsonServer :=
  match worker (_scheduler s) with
  | Calling e => Some (call_action e s)
  | _ =>
      match worker_step (_scheduler s) with
      | Some sch => Some (set_scheduler sch s)
      | None => None
      end
  end.

(** [WatsonServer.shutdown()] up to the two joins. *)
Definition shutdown_signal (s : WatsonServer) : WatsonServer :=
  mkWatsonServer (_projects s) (stop (_scheduler s))
                 (observer_stop (_observer s)) true (world s) (displayed s).

(** [self._scheduler.join()]: the caller is blocked while the worker
    goes on, until the join event is set.  [None] when that has not
    happened within [fuel] worker steps or cannot happen any more. *)
Fixpoint scheduler_join (fuel : nat) (s : WatsonServer) : option WatsonServer :=
  if joined (_scheduler s) then Some s
  else match fuel with
       | O => None
       | S fuel' =>
           match server_worker_step s with
           | Some s' => scheduler_join fuel' s'
           | None => None
           end
       end.

Definition shutdown (fuel : nat) (s : WatsonServer) : option WatsonServer :=
  scheduler_join fuel (shutdown_signal s).

(** Everything that can happen to a running server when the calls of
    its methods do not overlap: one whole method call or one worker
    step at a time.  The program does not enforce this; what it can do
    when calls overlap is [daemon_step] below. *)
Inductive step : WatsonServer -> WatsonServer -> Prop :=
| step_tick s d :
    (0 <= d)%Z ->
    step s (set_scheduler (set_now (now (_scheduler s) + d) (_scheduler s)) s)
| step_worker s s' :
    server_worker_step s = Some s' -> step s s'
| step_on_any_event s key :
    step s (on_any_event key s).2
| step_schedule_build s key timeout :
    step s (project_schedule_build key timeout s).2
| step_set_config s key config :
    step s (project_set_config key config s).2
| step_watcher_shutdown s key w :
    _projects s !! key = Some w ->
    step s (set_observer (watcher_shutdown w (_observer s)) s)
| step_add_project s working_dir config :
    step s (add_project working_dir config s).2
| step_shutdown s :
    step s (shutdown_signal s).

Inductive reachable (t0 : Z) (w0 : World) : WatsonServer -> Prop :=
| reachable_init : reachable t0 w0 (WatsonServer_init t0 w0)
| reachable_step s s' : reachable t0 w0 s -> step s s' -> reachable t0 w0 s'.

(** Timers of the watcher registered under [key] that sit in the queue. *)
Definition pending_timers (key : string) (s : WatsonServer) : list Event :=
  filter (fun e => action e = key) (_queue (_scheduler s)).

(** The event whose action the worker is calling, if it is calling one. *)
Definition calling (sch : EventScheduler) : option Event :=
  match worker sch with
  | Calling e => Some e
  | _ => None
  end.

(** The server after the watcher [w], registered under [key], has armed
    the timer [ev] on a queue whose remaining timers are [q]. *)
Definition armed (s : WatsonServer) (key : string) (w : ProjectWatcher)
    (q : list Event) (ev : Event) : WatsonServer :=
  set_scheduler (set_queue (q ++ [ev]) (notify (_scheduler s)))
    (set_projects (<[key := set_event (Some ev) w]> (_projects s)) s).

(** The two fields of a watcher the invariant below reads. *)
Definition view (w : ProjectWatcher) : string * option Event :=
  (name w, _event w).

(** What holds of the registry and the timer queue between any two
    steps.  A registered watcher is stored under its own name; the
    handle it keeps is a timer of its own that is still queued or is
    the one being called; every queued timer is the handle of the
    registered watcher it belongs to; no watcher has two timers queued;
    and the watcher whose timer is being called has none queued. *)
Record server_inv (s : WatsonServer) : Prop := mk_server_inv {
  inv_name : forall key w,
    _projects s !! key = Some w -> name w = key;
  inv_handle : forall key w e,
    _projects s !! key = Some w -> _event w = Some e ->
    action e = key
    /\ (e ∈ _queue (_scheduler s) \/ calling (_scheduler s) = Some e);
  inv_queue : forall e,
    e ∈ _queue (_scheduler s) ->
    exists w, _projects s !! action e = Some w /\ _event w = Some e;
  inv_one : forall key,
    length (pending_timers key s) <= 1;
  inv_calling : forall e,
    calling (_scheduler s) = Some e ->
    pending_timers (action e) s = []
    /\ exists w, _projects s !! action e = Some w /\ _event w = Some e
}.

(** *** Calls that overlap

    [schedule_build] is not one step of the program.  Lines 159-160
    read the configuration; line 163 evaluates the arguments of the
    call, [self._event] among them, before the condition of the
    scheduler is taken; [schedule] itself runs under the condition; and
    the assignment to [self._event] happens after the condition is
    released.  A thread can be preempted between any two of these, and
    two threads call [schedule_build]: the observer thread, through
    [on_any_event], and the thread that serves remote calls, at the end
    of [add_project]. *)

(** Where a thread stands inside a call of [schedule_build] on the
    watcher registered under [key]. *)
Inductive InFlight : Type :=
| Entered (key : string) (timeout : option Z)   (* called, nothing read yet *)
| TimeoutSet (key : string) (delay : Z)         (* lines 159-160 done *)
| HandleRead (key : string) (delay : Z) (handle : option Event)
                                                (* arguments of line 163 evaluated *)
| Scheduled (key : string) (ev : Event).        (* [schedule] returned [ev] *)

Inductive MoveResult : Type :=
| Next (c : InFlight)
| Finished
| Raised (exn : Exn).

(** The next move of a thread inside [schedule_build].  The watcher is
    found through the registry, from which nothing is ever removed. *)
Definition schedule_build_move (c : InFlight) (s : WatsonServer)
    : MoveResult * WatsonServer :=
  match c with
  | Entered key timeout =>
      match _projects s !! key with
      | None => (Raised KeyError, s)
      | Some w =>
          (Next (TimeoutSet key match timeout with
                                | None => config_build_timeout (_config w)
                                | Some t => t
                                end), s)
      end
  | TimeoutSet key delay =>
      match _projects s !! key with
      | None => (Raised KeyError, s)
      | Some w => (Next (HandleRead key delay (_event w)), s)
      end
  | HandleRead key delay handle =>
      match _projects s !! key with
      | None => (Raised KeyError, s)
      | Some w =>
          match schedule handle delay (name w) (_scheduler s) with
          | (inr ev, sch') => (Next (Scheduled key ev), set_scheduler sch' s)
          | (inl exn, sch') => (Raised exn, set_scheduler sch' s)
          end
      end
  | Scheduled key ev =>
      match _projects s !! key with
      | None => (Raised KeyError, s)
      | Some w =>
          (Finished,
           set_projects (<[key := set_event (Some ev) w]> (_projects s)) s)
      end
  end.

(** The two threads that call into the server. *)
Inductive Caller : Type :=
| ObserverThread                  (* delivers the change events, one at a time *)
| RpcThread.                      (* serves the remote calls, one at a time *)

(** The server together with the calls of [schedule_build] that are
    under way. *)
Record Daemon : Type := mkDaemon {
  server : WatsonServer;
  observer_call : option InFlight;
  rpc_call : option InFlight
}.

Definition idle (s : WatsonServer) : Daemon := mkDaemon s None None.

Definition in_call (c : Caller) (d : Daemon) : option InFlight :=
  match c with
  | ObserverThread => observer_call d
  | RpcThread => rpc_call d
  end.

Definition set_call (c : Caller) (x : option InFlight) (d : Daemon) : Daemon :=
  match c with
  | ObserverThread => mkDaemon (server d) x (rpc_call d)
  | RpcThread => mkDaemon (server d) (observer_call d) x
  end.

Definition set_server (s : WatsonServer) (d : Daemon) : Daemon :=
  mkDaemon s (observer_call d) (rpc_call d).

(** What a thread can do next. *)
Inductive Move : Type :=
| Tick (d : Z)
| WorkerStep
| ChangeEvent (key : string)      (* the observer thread enters [on_any_event] *)
| AddProject (working_dir : string) (config : UserConfig)
                                  (* the remote call, up to [schedule_build(0)] *)
| ScheduleBuild (c : Caller) (key : string) (timeout : option Z)
| SetConfig (key : string) (config : UserConfig)
| WatcherShutdown (key : string)
| Shutdown
| Go (c : Caller).                (* the next move of the call under way *)

(** One move of one thread; [None] when the move is not possible. *)
Definition daemon_move (m : Move) (d : Daemon) : option Daemon :=
  match m with
  | Tick t =>
      if decide (0 <= t)%Z
      then Some (set_server
                   (set_scheduler (set_now (now (_scheduler (server d)) + t)
                                           (_scheduler (server d))) (server d)) d)
      else None
  | WorkerStep =>
      match server_worker_step (server d) with
      | Some s' => Some (set_server s' d)
      | None => None
      end
  | ChangeEvent key =>
      match observer_call d with
      | None => Some (set_call ObserverThread (Some (Entered key None)) d)
      | Some _ => None
      end
  | AddProject working_dir config =>
      match rpc_call d with
      | None =>
          Some (set_call RpcThread
                  (Some (Entered (get_project_name working_dir) (Some 0%Z)))
                  (set_server
                     (add_project_register working_dir config (server d)) d))
      | Some _ => None
      end
  | ScheduleBuild c key timeout =>
      match in_call c d with
      | None => Some (set_call c (Some (Entered key timeout)) d)
      | Some _ => None
      end
  | SetConfig key config =>
      Some (set_server (project_set_config key config (server d)).2 d)
  | WatcherShutdown key =>
      match _projects (server d) !! key with
      | Some w =>
          Some (set_server
                  (set_observer (watcher_shutdown w (_observer (server d)))
                                (server d)) d)
      | None => None
      end
  | Shutdown => Some (set_server (shutdown_signal (server d)) d)
  | Go c =>
      match in_call c d with
      | None => None
      | Some call =>
          let '(r, s') := schedule_build_move call (server d) in
          Some (set_call c (match r with
                            | Next call' => Some call'
                            | Finished | Raised _ => None
                            end)
                         (set_server s' d))
      end
  end.

Definition daemon_step (d d' : Daemon) : Prop :=
  exists m, daemon_move m d = Some d'.

(** The moves of a schedule, one after the other; a move that is not
    possible is skipped. *)
Fixpoint run_moves (ms : list Move) (d : Daemon) : Daemon :=
  match ms with
  | [] => d
  | m :: rest => run_moves rest (default d (daemon_move m d))
  end.

(** The observer thread delivers a change event for [key] while the
    remote call [add_project(working_dir, config)] is served; both
    evaluate [self._event] before either calls [schedule]. *)
Definition overlapping_calls (key working_dir : string) (config : UserConfig)
    : list Move :=
  [ChangeEvent key; Go ObserverThread; Go ObserverThread;
   AddProject working_dir config; Go RpcThread; Go RpcThread;
   Go ObserverThread; Go RpcThread;
   Go ObserverThread; Go RpcThread].

End Server.

Arguments mkProjectWatcher {Config} _ _ _ _ _ _ _.
Arguments _event {Config} _.
Arguments name {Config} _.
Arguments working_dir {Config} _.
Arguments _config {Config} _.
Arguments _last_status {Config} _.
Arguments _notification {Config} _.
Arguments _watch {Config} _.
Arguments set_event {Config} _ _.
Arguments script {Config} config_script _.
Arguments set_config {UserConfig Config} ProjectConfig _ _.
Arguments ProjectWatcher_init {UserConfig Config} ProjectConfig _ _ _.
Arguments watcher_shutdown {Config} _ _.
Arguments schedule_build {Config} config_build_timeout _ _ _.
Arguments _show_notification {Config} _ _.
Arguments build {Config} config_script {World} local _ _.
Arguments mkWatsonServer {Config World} _ _ _ _ _ _.
Arguments _projects {Config World} _.
Arguments _scheduler {Config World} _.
Arguments _observer {Config World} _.
Arguments api_closed {Config World} _.
Arguments world {Config World} _.
Arguments displayed {Config World} _.
Arguments set_projects {Config World} _ _.
Arguments set_scheduler {Config World} _ _.
Arguments set_observer {Config World} _ _.
Arguments WatsonServer_init {Config World} _ _.
Arguments project_schedule_build {Config} config_build_timeout {World} _ _ _.
Arguments on_any_event {Config} config_build_timeout {World} _ _.
Arguments project_set_config {UserConfig Config} ProjectConfig {World} _ _ _.
Arguments add_project {UserConfig Config} ProjectConfig config_build_timeout {World} _ _ _.
Arguments call_action {Config} config_script {World} local _ _.
Arguments server_worker_step {Config} config_script {World} local _.
Arguments shutdown_signal {Config World} _.
Arguments scheduler_join {Config} config_script {World} local _ _.
Arguments shutdown {Config} config_script {World} local _ _.
Arguments step {UserConfig Config} ProjectConfig config_script config_build_timeout {World} local _ _.
Arguments reachable {UserConfig Config} ProjectConfig config_script config_build_timeout {World} local _ _ _.
Arguments pending_timers {Config World} _ _.
Arguments armed {Config World} _ _ _ _ _.
Arguments view {Config} _.
Arguments calling _ : assert.
Arguments server_inv {Config World} _.
Arguments add_project_register {UserConfig Config} ProjectConfig {World} _ _ _.
Arguments schedule_build_move {Config} config_build_timeout {World} _ _.
Arguments mkDaemon {Config World} _ _ _.
Arguments server {Config World} _.
Arguments observer_call {Config World} _.
Arguments rpc_call {Config World} _.
Arguments idle {Config World} _.
Arguments in_call {Config World} _ _.
Arguments set_call {Config World} _ _ _.
Arguments set_server {Config World} _ _.
Arguments Tick {UserConfig} _.
Arguments WorkerStep {UserConfig}.
Arguments ChangeEvent {UserConfig} _.
Arguments AddProject {UserConfig} _ _.
Arguments ScheduleBuild {UserConfig} _ _ _.
Arguments SetConfig {UserConfig} _ _.
Arguments WatcherShutdown {UserConfig} _.
Arguments Shutdown {UserConfig}.
Arguments Go {UserConfig} _.
Arguments daemon_move {UserConfig Config} ProjectConfig config_script config_build_timeout {World} local _ _.
Arguments daemon_step {UserConfig Config} ProjectConfig config_script config_build_timeout {World} local _ _.
Arguments run_moves {UserConfig Config} ProjectConfig config_script config_build_timeout {World} local _ _.
Arguments overlapping_calls {UserConfig} _ _ _.
Arguments inv_name {Config World} _ _.
Arguments inv_handle {Config World} _ _.
Arguments inv_queue {Config World} _ _.
Arguments inv_one {Config World} _ _.
Arguments inv_calling {Config World} _ _.

(** ** A small concrete machine, used to run the model *)

Module Demo.

(** Commands append themselves to a log; a command succeeds unless it
    is spelled ["false_cmd"]. *)
Definition local (wd command : string) (log : list string)
    : LocalResult * list string :=
  if String.eqb command "false_cmd"
  then (mkLocalResult "" "boom" false, log ++ [command])
  else (mkLocalResult ("ran " +:+ command) "" true, log ++ [command]).

Record Cfg : Type := mkCfg { cfg_script : list string; cfg_timeout : Z }.

Definition ProjectConfig (c : Cfg) : Cfg := c.

(** Components of a slash-separated absolute path. *)
Fixpoint components (cur : string) (s : string) : list string :=
  match s with
  | EmptyString => if truthy cur then [cur] else []
  | String c rest =>
      if decide (c = "/"%char)
      then (if truthy cur then [cur] else []) ++ components "" rest
      else components (cur +:+ String c "") rest
  end.

Definition abspath (start : string) : Path := components "" start.

(** A tree whose root holds [setup.py] and where [/home/me/proj]
    holds [.watson.yaml].  [/home/me/notes] is a file; what is not
    named here does not exist. *)
Definition listdir (d : Path) : option (list string) :=
  if decide (d = []) then Some ["setup.py"; "home"; "usr"]
  else if decide (d = ["home"]) then Some ["me"]
  else if decide (d = ["home"; "me"]) then Some ["proj"; "notes"]
  else if decide (d = ["home"; "me"; "proj"]) then Some [".watson.yaml"; "src"]
  else if decide (d = ["home"; "me"; "proj"; "src"]) then Some ["a"]
  else if decide (d = ["home"; "me"; "proj"; "src"; "a"]) then Some []
  else if decide (d = ["usr"]) then Some ["lib"]
  else if decide (d = ["usr"; "lib"]) then Some []
  else None.

Definition server0 : WatsonServer Cfg (list string) := WatsonServer_init 0 [].

Definition add (wd : string) (c : Cfg) (s : WatsonServer Cfg (list string)) :=
  add_project ProjectConfig cfg_timeout wd c s.

(** A scheduler with one build pending: the worker has started, found
    the queue empty and gone to wait; a build of ["proj"] is scheduled
    five ticks ahead, which wakes the worker, and the worker is back in
    [sched.run()], about to sleep until the build is due. *)
Definition never_raises (e : Event) : bool := false.

Definition waiting : EventScheduler :=
  (worker_run never_raises 3 (EventScheduler_init 0)).1.

Definition pending : EventScheduler :=
  let s1 := (schedule None 5 "proj" waiting).2 in
  default s1 (worker_step s1).

Definition worker_steps (n : nat) (s : WatsonServer Cfg (list string))
    : WatsonServer Cfg (list string) :=
  Nat.iter n (fun s => default s (server_worker_step cfg_script local s)) s.

(** A server with a build pending: the worker has gone to wait, the
    project [/home/me/proj] is registered and built once, a change in
    its directory schedules the next build five ticks ahead, and the
    worker is back in [sched.run()]. *)
Definition busy_server : WatsonServer Cfg (list string) :=
  let s1 := worker_steps 3 server0 in
  let s2 := (add "/home/me/proj" (mkCfg ["true_cmd"] 5) s1).2 in
  let s3 := worker_steps 6 s2 in
  let s4 := (on_any_event cfg_timeout "proj" s3).2 in
  worker_steps 1 s4.

(** The project registered on a server whose worker waits; the same
    server once the worker has popped the first timer and is about to
    call the build; and a server whose worker has died in the build of
    a project with an empty script. *)
Definition registered : WatsonServer Cfg (list string) :=
  (add "/home/me/proj" (mkCfg ["true_cmd"] 5) (worker_steps 3 server0)).2.

Definition calling_server : WatsonServer Cfg (list string) :=
  worker_steps 2 registered.

Definition dead_server : WatsonServer Cfg (list string) :=
  worker_steps 6
    (add "/home/me/proj" (mkCfg [] 5) (worker_steps 3 server0)).2.

(** The project registered and built once: the worker waits again, no
    timer is pending and the watcher holds no handle. *)
Definition built_server : WatsonServer Cfg (list string) :=
  worker_steps 6 registered.

End Demo.

(** ** Notions used to state the properties of the directory search *)

(** The first [n] directories on the way up from [d]. *)
Fixpoint upward (n : nat) (d : Path) : list Path :=
  match n with
  | O => []
  | S k => d :: upward k (parent d)
  end.

(** The directories the search may look into: [d], its parent, and so
    on, up to the child of the root. *)
Definition searched (d : Path) : list Path := upward (length d) d.

(** [d] can be listed and holds an entry that is one of the
    indicators. *)
Definition has_indicator (listdir : Path -> option (list string))
    (look_for : gset string) (d : Path) : Prop :=
  exists items i, listdir d = Some items /\ i ∈ items /\ i ∈ look_for.

(** [d] can be listed and holds no indicator: the search goes on to its
    parent. *)
Definition passed_over (listdir : Path -> option (list string))
    (look_for : gset string) (d : Path) : Prop :=
  exists items, listdir d = Some items /\ forall i, i ∈ items -> i ∉ look_for.

(** ** Notions used to state further properties *)

(** [c in s] *)
Fixpoint contains (c : ascii) (s : string) : bool :=
  match s with
  | EmptyString => false
  | String a rest => (bool_decide (a = c) || contains c rest)%bool
  end.

Section Bursts.
Context {Config World : Type}.
Variable config_build_timeout : Config -> Z.

(** Time passing: the clock moves on by [d]. *)
Definition tick (d : Z) (s : WatsonServer Config World)
    : WatsonServer Config World :=
  set_scheduler (set_now (now (_scheduler s) + d) (_scheduler s)) s.

(** A burst of change events in the directory of the project [key]:
    before each event the clock moves on by the given gap.  What an
    event raises is dropped: the observer thread goes on with the next. *)
Fixpoint burst (key : string) (gaps : list Z) (s : WatsonServer Config World)
    : WatsonServer Config World :=
  match gaps with
  | [] => s
  | d :: rest =>
      burst key rest (on_any_event config_build_timeout key (tick d s)).2
  end.

End Bursts.

Section Registry.
Context {Config : Type}.

(** [w'] is the watcher [w] at a later time: same name, same working
    directory, same watch. *)
Definition kept (w w' : ProjectWatcher Config) : Prop :=
  name w' = name w /\ working_dir w' = working_dir w /\ _watch w' = _watch w.

(** The watcher [w] is stored under [key] as [add_project] stores one:
    under its name, which is the last component of its working
    directory, and watching that directory and what is below it. *)
Definition well_registered (key : string) (w : ProjectWatcher Config) : Prop :=
  name w = key
  /\ key = get_project_name (working_dir w)
  /\ _watch w = mkObservedWatch (working_dir w) true.

(** From the registry [m] to the registry [m']: every watcher is kept,
    and what is new is well registered. *)
Definition registry_grows (m m' : gmap string (ProjectWatcher Config)) : Prop :=
  forall key,
    match m !! key with
    | Some w => exists w', m' !! key = Some w' /\ kept w w'
    | None => forall w', m' !! key = Some w' -> well_registered key w'
    end.

End Registry.

(** * Properties *)

Lemma last_cons_from {A} (r0 : option A) (r : A) (rs : list A) :
  from_option Some r0 (last (r :: rs)) = from_option Some (Some r) (last rs).
Proof.
  destruct rs as [|r' rs']; [reflexivity|].
  rewrite last_cons_cons. destruct (last (r' :: rs')) eqn:E; [reflexivity|].
  by apply last_None in E.
Qed.

(** ** The build runner *)

Section BuilderFacts.
Context {World : Type}.
Variable local : string -> string -> World -> LocalResult * World.

Lemma script_loop_all_ok wd cmds r0 w :
  Forall (fun r => succeeded r = true) (run_all local wd cmds w).1 ->
  script_loop local wd cmds true r0 w
  = ((true, from_option Some r0 (last (run_all local wd cmds w).1)),
     (run_all local wd cmds w).2).
Proof.
  revert r0 w. induction cmds as [|c rest IH]; intros r0 w Hall; simpl.
  - reflexivity.
  - simpl in Hall. destruct (local wd c w) as [r w'] eqn:Hl.
    destruct (run_all local wd rest w') as [rs w''] eqn:Hr. simpl in *.
    apply Forall_cons in Hall as [Hr1 Hrs]. rewrite Hr1. simpl.
    specialize (IH (Some r) w'). rewrite Hr in IH. simpl in IH.
    rewrite IH by exact Hrs.
    by rewrite last_cons_from.
Qed.

Lemma script_loop_app wd pre post r0 w :
  Forall (fun r => succeeded r = true) (run_all local wd pre w).1 ->
  script_loop local wd (pre ++ post) true r0 w
  = script_loop local wd post true
      (from_option Some r0 (last (run_all local wd pre w).1))
      (run_all local wd pre w).2.
Proof.
  revert r0 w. induction pre as [|c rest IH]; intros r0 w Hall; simpl.
  - reflexivity.
  - simpl in Hall. destruct (local wd c w) as [r w'] eqn:Hl.
    destruct (run_all local wd rest w') as [rs w''] eqn:Hr. simpl in *.
    apply Forall_cons in Hall as [Hr1 Hrs]. rewrite Hr1. simpl.
    specialize (IH (Some r) w'). rewrite Hr in IH. simpl in IH.
    rewrite IH by exact Hrs.
    by rewrite last_cons_from.
Qed.

(** C1.  A non-empty script is run command by command in order.  If
    the commands of [pre] all succeed and the next command [c] fails,
    the status is [(false, result of c)] and the machine is left as
    [c] left it, whatever follows [c] in the script: nothing after
    [c] is run.  If every command succeeds, the status is
    [(true, result of the last command)]. *)
Theorem execute_script_stops_at_first_failure wd script w :
  script <> [] ->
  (forall pre c post,
      script = pre ++ c :: post ->
      Forall (fun r => succeeded r = true) (run_all local wd pre w).1 ->
      succeeded (local wd c (run_all local wd pre w).2).1 = false ->
      execute_script local wd script w
      = ((false, Some (local wd c (run_all local wd pre w).2).1),
         (local wd c (run_all local wd pre w).2).2))
  /\ (Forall (fun r => succeeded r = true) (run_all local wd script w).1 ->
      exists r,
        last (run_all local wd script w).1 = Some r
        /\ execute_script local wd script w
           = ((true, Some r), (run_all local wd script w).2)).
Proof.
  intros Hne. split.
  - intros pre c post -> Hpre Hc.
    unfold execute_script, _execute_script_internal.
    rewrite script_loop_app by exact Hpre. simpl.
    destruct (local wd c (run_all local wd pre w).2) as [r w'] eqn:Hl.
    simpl in Hc. rewrite Hc. reflexivity.
  - intros Hall.
    unfold execute_script, _execute_script_internal.
    rewrite script_loop_all_ok by exact Hall.
    destruct script as [|c rest]; [congruence|].
    simpl. destruct (local wd c w) as [r0 w'].
    destruct (run_all local wd rest w') as [rs w''] eqn:Hr. simpl.
    destruct (last (r0 :: rs)) as [r|] eqn:Hlast.
    + exists r. split; reflexivity.
    + by apply last_None in Hlast.
Qed.

(** C4, evaluation of the code on the empty script: the loop body is
    never entered, so the status is [(true, None)] on an untouched
    machine; the result is no object at all rather than an empty
    output, and [_show_notification], which every build hands its
    status to, raises on it. *)
Theorem execute_script_empty_returns_no_result wd w :
  execute_script local wd [] w = ((true, None), w)
  /\ forall Config (pw : ProjectWatcher Config),
       _show_notification (true, None) pw = inl AttributeError.
Proof. split; reflexivity. Qed.

End BuilderFacts.

(** The spec's short-circuit example, run on the demo machine. *)
Lemma execute_script_stops_at_first_failure_witness :
  execute_script Demo.local "/p" ["true_cmd"; "false_cmd"; "true_cmd2"] []
  = ((false, Some (mkLocalResult "" "boom" false)), ["true_cmd"; "false_cmd"]).
Proof.
  refine (proj1 (execute_script_stops_at_first_failure Demo.local "/p"
                   ["true_cmd"; "false_cmd"; "true_cmd2"] [] _)
                ["true_cmd"] "false_cmd" ["true_cmd2"] _ _ _).
  - discriminate.
  - reflexivity.
  - repeat constructor.
  - reflexivity.
Defined.

(** ** The notification text *)

Lemma notification_body_is_joined_output nm succeeed r :
  body (notification_update nm succeeed r)
  = strip (stdout r) +:+ NL +:+ strip (stderr r).
Proof.
  unfold notification_update. simpl join.
  destruct succeeed; simpl; [reflexivity|].
  destruct (strip (stdout r)); reflexivity.
Qed.

(** C5, evaluation of the code on a failed build without output: the
    joined output is a lone line break, which is a true value, so the
    body is that line break and the placeholder is not used. *)
Theorem failed_build_without_output_shows_line_break nm :
  notification_update nm false (mkLocalResult "" "" false)
  = mkNotification (nm +:+ " failed") NL
  /\ NL <> "No output".
Proof. split; [reflexivity | discriminate]. Qed.

(** ** The project directory search *)

Lemma length_parent (d : Path) : length (parent d) = pred (length d).
Proof.
  unfold parent. induction d as [|x [|y l] IH]; [reflexivity..|].
  change (removelast (x :: y :: l)) with (x :: removelast (y :: l)).
  simpl length in *. by rewrite IH.
Qed.

Lemma parent_eq_iff_root (d : Path) : parent d = d <-> d = [].
Proof.
  split; [|by intros ->].
  intros H. apply (f_equal length) in H. rewrite length_parent in H.
  destruct d; [reflexivity | simpl in H; lia].
Qed.

Lemma parent_prefix (d : Path) : parent d `prefix_of` d.
Proof.
  unfold parent. destruct (decide (d = [])) as [->|Hne]; [done|].
  exists [List.last d ""]. by apply app_removelast_last.
Qed.

Lemma searched_cons (d : Path) :
  d <> [] -> searched d = d :: searched (parent d).
Proof.
  intros Hne. unfold searched. rewrite length_parent.
  destruct d; [done | reflexivity].
Qed.

Lemma elem_of_upward n (d x : Path) :
  n <= length d -> x ∈ upward n d ->
  x <> [] /\ x `prefix_of` d /\ length x <= length d.
Proof.
  revert d. induction n as [|k IH]; intros d Hn Hx; simpl in Hx.
  - by apply elem_of_nil in Hx.
  - apply elem_of_cons in Hx as [->|Hx].
    + split; [|split; [done | lia]]. intros ->. simpl in Hn. lia.
    + apply IH in Hx as (Hne & Hpre & Hlen); [|rewrite length_parent; lia].
      split; [done|]. split.
      * etrans; [exact Hpre | apply parent_prefix].
      * rewrite length_parent in Hlen. lia.
Qed.


Lemma NoDup_upward n (d : Path) : n <= length d -> NoDup (upward n d).
Proof.
  revert d. induction n as [|k IH]; intros d Hn; simpl; constructor.
  - intros Hin. apply elem_of_upward in Hin as (_ & _ & Hlen).
    + rewrite length_parent in Hlen. lia.
    + rewrite length_parent. lia.
  - apply IH. rewrite length_parent. lia.
Qed.

Section FindProjectFacts.
Variable abspath : string -> Path.
Variable listdir : Path -> option (list string).

Lemma existsb_indicator (lf : gset string) (items : list string) :
  existsb (fun i => bool_decide (i ∈ lf)) items = true
  <-> exists i, i ∈ items /\ i ∈ lf.
Proof.
  rewrite existsb_exists.
  split; intros (i & Hi & Hlf); exists i.
  - apply list_elem_of_In in Hi. by apply bool_decide_eq_true in Hlf.
  - split; [by apply list_elem_of_In | by apply bool_decide_eq_true].
Qed.

Lemma passed_over_listed (lf : gset string) (d : Path) :
  passed_over listdir lf d -> is_Some (listdir d).
Proof. intros (items & -> & _). eauto. Qed.

Lemma passed_over_no_indicator (lf : gset string) (d : Path) :
  passed_over listdir lf d -> ~ has_indicator listdir lf d.
Proof.
  intros (items & Hl & Hno) (items' & i & Hl' & Hi & Hlf).
  simplify_eq. by apply (Hno i).
Qed.

Lemma no_indicator_passed_over (lf : gset string) (d : Path) :
  is_Some (listdir d) -> ~ has_indicator listdir lf d ->
  passed_over listdir lf d.
Proof.
  intros [items Hl] Hno. exists items. split; [done|].
  intros i Hi Hlf. apply Hno. by exists items, i.
Qed.

(** What the loop returns when it is given enough iterations. *)
Lemma search_up_spec (lf : gset string) fuel (d : Path) :
  length d < fuel ->
  match search_up listdir fuel lf d with
  | (Returned d', listed) =>
      exists before,
        listed = before ++ [d']
        /\ listed `prefix_of` searched d
        /\ has_indicator listdir lf d'
        /\ Forall (passed_over listdir lf) before
  | (FellThrough, listed) =>
      listed = searched d
      /\ Forall (passed_over listdir lf) (searched d)
  | (ListingFailed, listed) =>
      exists before d',
        listed = before ++ [d']
        /\ listed `prefix_of` searched d
        /\ listdir d' = None
        /\ Forall (passed_over listdir lf) before
  | (OutOfFuel, _) => False
  end.
Proof.
  revert d. induction fuel as [|fuel IH]; intros d Hfuel; [lia|].
  simpl. destruct (decide (parent d <> d)) as [Hne|Heq].
  - assert (d <> []) as Hd by (intros ->; by apply Hne).
    rewrite (searched_cons d Hd).
    destruct (listdir d) as [items|] eqn:Hl.
    + destruct (existsb _ items) eqn:Hex.
      * exists []. split; [done|]. split; [|split; [|constructor]].
        -- by apply prefix_cons, prefix_nil.
        -- apply existsb_indicator in Hex as (i & Hi & Hlf).
           by exists items, i.
      * assert (passed_over listdir lf d) as Hno.
        { exists items. split; [done|]. intros i Hi Hlf.
          assert (existsb (fun i => bool_decide (i ∈ lf)) items = true) as Hex'
            by (apply existsb_indicator; eauto).
          congruence. }
        assert (length (parent d) < fuel) as Hlt.
        { rewrite length_parent. destruct d; [done|]. simpl in *. lia. }
        specialize (IH (parent d) Hlt).
        destruct (search_up listdir fuel lf (parent d)) as [[d'| | |] listed].
        -- destruct IH as (before & -> & Hpre & Hind & Hbefore).
           exists (d :: before). split; [done|]. split; [|split; [done|]].
           ++ by apply prefix_cons.
           ++ by constructor.
        -- destruct IH as [-> Hall]. split; [done | by constructor].
        -- destruct IH as (before & d' & -> & Hpre & Hfail & Hbefore).
           exists (d :: before), d'. split; [done|]. split; [|split; [done|]].
           ++ by apply prefix_cons.
           ++ by constructor.
        -- exact IH.
    + exists [], d. split; [done|]. split; [|split; [done|constructor]].
      by apply prefix_cons, prefix_nil.
  - assert (d = []) as -> by (apply parent_eq_iff_root; by destruct (decide (parent d = d)); [|exfalso; auto]).
    split; [done | constructor].
Qed.

Lemma find_project_directory_listing_cases start look_for :
  let lf := indicators look_for in
  let dirs := searched (abspath start) in
  (exists d before,
      find_project_directory_listing abspath listdir start look_for
      = (Some (inr d), before ++ [d])
      /\ (before ++ [d]) `prefix_of` dirs
      /\ has_indicator listdir lf d
      /\ Forall (passed_over listdir lf) before)
  \/ (find_project_directory_listing abspath listdir start look_for
      = (Some (inl (not_a_project start)), dirs)
      /\ Forall (passed_over listdir lf) dirs)
  \/ (exists d before,
      find_project_directory_listing abspath listdir start look_for
      = (Some (inl OSError), before ++ [d])
      /\ (before ++ [d]) `prefix_of` dirs
      /\ listdir d = None
      /\ Forall (passed_over listdir lf) before).
Proof.
  intros lf dirs. unfold find_project_directory_listing.
  pose proof (search_up_spec lf (S (length (abspath start))) (abspath start)) as H.
  fold lf. destruct (search_up _ _ lf (abspath start)) as [[d| | |] listed].
  - destruct H as (before & -> & Hpre & Hind & Hbefore); [lia|].
    left. by exists d, before.
  - destruct H as [-> Hall]; [lia|]. right. by left.
  - destruct H as (before & d & -> & Hpre & Hfail & Hbefore); [lia|].
    right. right. by exists d, before.
  - destruct H. lia.
Qed.


(** The search always comes back: the loop bound is never reached. *)
Lemma find_project_directory_total start look_for :
  is_Some (find_project_directory abspath listdir start look_for).
Proof.
  unfold find_project_directory.
  destruct (find_project_directory_listing_cases start look_for)
    as [(d & before & -> & _)|[[-> _]|(d & before & -> & _)]]; simpl; eauto.
Qed.

(** C7.  For every start path the search comes back in one of three
    ways.  It returns a directory that is the start directory or one of
    its ancestors below the root, holds an indicator entry, and is the
    nearest such directory, every directory before it having been
    listed without an indicator.  Or it raises [WatsonError] with the
    message "<start> does not look like a project subdirectory", when
    every searched directory was listed and none holds an indicator.
    Or the [OSError] of [os.listdir] comes out of it: at the first
    searched directory that cannot be listed, every directory before it
    having been listed without an indicator.  It raises [WatsonError]
    exactly when every searched directory can be listed and none holds
    an indicator, and it answers in one of the first two ways when
    every searched directory can be listed.  The directories it lists
    are an initial part of the way up, each listed once: nothing is
    tried again. *)
Theorem find_project_directory_returns_or_raises start look_for :
  let lf := indicators look_for in
  let dirs := searched (abspath start) in
  let result := find_project_directory abspath listdir start look_for in
  ((exists d before after,
       result = Some (inr d)
       /\ dirs = before ++ d :: after
       /\ has_indicator listdir lf d
       /\ Forall (passed_over listdir lf) before)
   \/ (result
       = Some (inl (WatsonError
                      (start +:+ " does not look like a project subdirectory")))
       /\ Forall (passed_over listdir lf) dirs)
   \/ (exists d before after,
       result = Some (inl OSError)
       /\ dirs = before ++ d :: after
       /\ listdir d = None
       /\ Forall (passed_over listdir lf) before))
  /\ (result
      = Some (inl (WatsonError
                     (start +:+ " does not look like a project subdirectory")))
      <-> Forall (passed_over listdir lf) dirs)
  /\ (Forall (fun d => is_Some (listdir d)) dirs ->
      (exists d, result = Some (inr d) /\ has_indicator listdir lf d)
      \/ result
         = Some (inl (WatsonError
                        (start +:+ " does not look like a project subdirectory"))))
  /\ (find_project_directory_listing abspath listdir start look_for).2
       `prefix_of` dirs
  /\ NoDup (find_project_directory_listing abspath listdir start look_for).2.
Proof.
  intros lf dirs result. unfold result, find_project_directory.
  assert (NoDup dirs) as Hnd by (by apply NoDup_upward).
  assert (forall before d after l,
             dirs = (before ++ [d]) ++ after -> l = before ++ [d] ->
             l `prefix_of` dirs /\ NoDup l) as Hlisted.
  { intros before d after l Hdirs ->. split; [by exists after|].
    rewrite Hdirs in Hnd. by apply NoDup_app in Hnd as [Hnd' _]. }
  destruct (find_project_directory_listing_cases start look_for)
    as [(d & before & -> & Hpre & Hind & Hbefore)
       |[[-> Hall]|(d & before & -> & Hpre & Hfail & Hbefore)]]; simpl.
  - fold lf dirs in Hpre, Hind, Hbefore.
    destruct Hpre as [after Hdirs].
    destruct (Hlisted before d after _ Hdirs eq_refl) as [Hp Hn].
    rewrite <- app_assoc in Hdirs. simpl in Hdirs.
    split; [|split; [|split; [|split]]]; [| | |done|done].
    + left. by exists d, before, after.
    + split; [intros [=]|].
      intros Hall. exfalso. rewrite Hdirs in Hall.
      apply Forall_app in Hall as [_ Hall].
      apply Forall_cons in Hall as [Hd _].
      by apply passed_over_no_indicator in Hd.
    + intros _. left. by exists d.
  - fold lf dirs in Hall |- *.
    split; [|split; [|split; [|split]]]; [| | |done|done].
    + right. by left.
    + done.
    + intros _. by right.
  - fold lf dirs in Hpre, Hbefore.
    destruct Hpre as [after Hdirs].
    destruct (Hlisted before d after _ Hdirs eq_refl) as [Hp Hn].
    rewrite <- app_assoc in Hdirs. simpl in Hdirs.
    assert (~ Forall (fun d => is_Some (listdir d)) dirs) as Hsome.
    { intros Hall. rewrite Hdirs in Hall.
      apply Forall_app in Hall as [_ Hall].
      apply Forall_cons in Hall as [[items Hd] _]. congruence. }
    split; [|split; [|split; [|split]]]; [| | |done|done].
    + right. right. by exists d, before, after.
    + split; [intros [=]|].
      intros Hall. exfalso. apply Hsome.
      eapply Forall_impl; [exact Hall|]. intros x. apply passed_over_listed.
    + intros Hall. by destruct Hsome.
Qed.


End FindProjectFacts.

(** C7, the start path that is no directory.  [/home/me/nothere] does
    not exist on the demo tree (and [/home/me/notes] is a file): the
    search neither returns a directory nor raises [WatsonError]; the
    [OSError] of the first listing comes out of it.  The same happens
    below a project directory. *)
Lemma find_project_directory_lets_listing_error_through :
  let result := find_project_directory Demo.abspath Demo.listdir
                  "/home/me/nothere" None in
  result = Some (inl OSError)
  /\ (forall d, result <> Some (inr d))
  /\ result <> Some (inl (not_a_project "/home/me/nothere"))
  /\ find_project_directory Demo.abspath Demo.listdir "/home/me/notes" None
     = Some (inl OSError)
  /\ find_project_directory Demo.abspath Demo.listdir
       "/home/me/proj/nothere" None
     = Some (inl OSError).
Proof. vm_compute. repeat split; intros; discriminate. Qed.


(** ** The scheduler queue *)

Lemma heap_top_None (q : list Event) : heap_top q = None <-> q = [].
Proof.
  split; [|by intros ->].
  destruct q as [|e rest]; [done|]. simpl.
  destruct (heap_top rest) as [m|]; [|done]. by destruct (event_ltb m e).
Qed.

Lemma heap_top_elem (q : list Event) e : heap_top q = Some e -> e ∈ q.
Proof.
  revert e. induction q as [|x rest IH]; intros e H; simpl in H; [done|].
  destruct (heap_top rest) as [m|].
  - destruct (event_ltb m x); simplify_eq.
    + right. by apply IH.
    + by left.
  - simplify_eq. by left.
Qed.

Lemma remove_first_Some (x : Event) (q : list Event) :
  x ∈ q -> exists q', remove_first x q = Some q'.
Proof.
  induction q as [|e rest IH]; intros Hin; [by apply elem_of_nil in Hin|].
  simpl. destruct (decide (e = x)) as [->|Hne]; [eauto|].
  apply elem_of_cons in Hin as [->|Hin]; [done|].
  destruct (IH Hin) as [q' ->]. eauto.
Qed.

Lemma remove_first_None (x : Event) (q : list Event) :
  remove_first x q = None <-> x ∉ q.
Proof.
  split.
  - intros Hnone Hin. apply remove_first_Some in Hin as [q' Hq']. congruence.
  - induction q as [|e rest IH]; intros Hnin; [done|]. simpl.
    apply not_elem_of_cons in Hnin as [Hne Hnin].
    destruct (decide (e = x)); [congruence|]. by rewrite IH.
Qed.

Lemma remove_first_perm (x : Event) (q q' : list Event) :
  remove_first x q = Some q' -> q ≡ₚ x :: q'.
Proof.
  revert q'. induction q as [|e rest IH]; intros q' H; simpl in H; [done|].
  destruct (decide (e = x)) as [->|Hne]; [by simplify_eq|].
  destruct (remove_first x rest) as [rest'|]; [|done]. simplify_eq.
  rewrite (IH rest' eq_refl). apply Permutation_swap.
Qed.

Lemma remove_first_sublist (x : Event) (q q' : list Event) :
  remove_first x q = Some q' -> q' `sublist_of` q.
Proof.
  revert q'. induction q as [|e rest IH]; intros q' H; simpl in H; [done|].
  destruct (decide (e = x)) as [->|Hne]; simplify_eq.
  - by apply sublist_cons.
  - destruct (remove_first x rest) as [rest'|]; [|done]. simplify_eq.
    apply sublist_skip. by apply IH.
Qed.

Lemma heappop_perm (q : list Event) e :
  heap_top q = Some e -> q ≡ₚ e :: heappop q.
Proof.
  intros Htop. unfold heappop. rewrite Htop.
  destruct (remove_first_Some e q (heap_top_elem q e Htop)) as [q' Hq'].
  rewrite Hq'. simpl. by apply remove_first_perm.
Qed.

Lemma heappop_sublist (q : list Event) : heappop q `sublist_of` q.
Proof.
  unfold heappop. destruct (heap_top q) as [e|] eqn:Htop; [|done].
  destruct (remove_first e q) as [q'|] eqn:Hq'; [|done].
  simpl. by eapply remove_first_sublist.
Qed.

(** ** The worker thread and [stop] *)

Section WorkerFacts.
Variable raises : Event -> bool.

Lemma worker_run_exited fuel s :
  worker s = Exited -> worker_run raises fuel s = (s, []).
Proof.
  intros H. destruct fuel; simpl; [done|].
  rewrite H. unfold worker_step. by rewrite H.
Qed.

(** Once the worker is gone, more steps change nothing. *)
Lemma worker_run_more fuel fuel' s s' called :
  worker_run raises fuel s = (s', called) -> worker s' = Exited ->
  fuel <= fuel' -> worker_run raises fuel' s = (s', called).
Proof.
  revert fuel' s s' called.
  induction fuel as [|fuel IH]; intros fuel' s s' called Hrun Hexit Hle.
  - simpl in Hrun. simplify_eq. by apply worker_run_exited.
  - destruct fuel' as [|fuel']; [lia|]. simpl in Hrun |- *.
    destruct (worker s) eqn:Hpc;
      try (destruct (worker_step s) as [s1|]; [by apply IH; [..|lia] | done]).
    destruct (worker_run raises fuel (action_done (raises e) s))
      as [s2 called2] eqn:Hrun2.
    simplify_eq. by rewrite (IH fuel' _ _ _ Hrun2 Hexit) by lia.
Qed.

(** A worker inside [sched.run()] empties the queue, calling every
    action, before it looks at the finished flag again. *)
Lemma worker_drains_queue n s :
  length (_queue s) = n -> worker s = InRun -> _is_finished s = true ->
  (forall e, e ∈ _queue s -> raises e = false) ->
  exists fuel s' called,
    worker_run raises fuel s = (s', called)
    /\ worker s' = Exited /\ _join_event s' = true /\ _queue s' = []
    /\ called ≡ₚ _queue s.
Proof.
  revert s. induction n as [|n IH]; intros [q fin j pc t]; simpl;
    intros Hlen -> -> Hok.
  - apply nil_length_inv in Hlen as ->.
    exists 3, (mkEventScheduler [] true true Exited t), []. by repeat split.
  - destruct (heap_top q) as [e|] eqn:Htop;
      [|apply heap_top_None in Htop; subst; done].
    pose proof (heappop_perm q e Htop) as Hperm.
    assert (raises e = false) as He by (apply Hok; by eapply heap_top_elem).
    set (t' := if (t <? time e)%Z then time e else t).
    destruct (IH (mkEventScheduler (heappop q) true j InRun t'))
      as (fuel & s' & called & Hrun & Hexit & Hjoin & Hq & Hcalled); simpl.
    { apply Permutation_length in Hperm. simpl in Hperm. lia. }
    { done. }
    { done. }
    { intros x Hx. apply Hok. rewrite Hperm. by right. }
    exists (S (S (S fuel))), s', (e :: called).
    split; [|repeat split; try done; by rewrite Hperm, Hcalled].
    unfold t' in Hrun. destruct (t <? time e)%Z eqn:Hlt.
    + simpl. unfold worker_step at 1. simpl. rewrite Htop, Hlt. simpl.
      unfold worker_step at 1. simpl. rewrite Htop, Z.ltb_irrefl. simpl.
      rewrite He. unfold action_done, set_worker. simpl. by rewrite Hrun.
    + apply (worker_run_more (S (S fuel))); [|done|lia].
      simpl. unfold worker_step at 1. simpl. rewrite Htop, Hlt. simpl.
      rewrite He. unfold action_done, set_worker. simpl. by rewrite Hrun.
Qed.

(** The same for a worker that is in the middle of a callback: it
    finishes the call and goes on from the head of the loop. *)
Lemma worker_drains_queue_from s :
  worker s = InRun \/ (exists e0, worker s = Calling e0) ->
  _is_finished s = true ->
  (forall e, e ∈ option_list (calling s) ++ _queue s -> raises e = false) ->
  exists fuel s' called,
    worker_run raises fuel s = (s', called)
    /\ worker s' = Exited /\ _join_event s' = true /\ _queue s' = []
    /\ called ≡ₚ option_list (calling s) ++ _queue s.
Proof.
  intros Hpc Hfin Hok.
  destruct s as [q fin j pc t]. simpl in Hpc, Hfin, Hok. subst.
  assert (forall e, e ∈ q -> raises e = false) as Hq.
  { intros e He. apply Hok. apply elem_of_app. by right. }
  destruct (worker_drains_queue (length q)
              (mkEventScheduler q true j InRun t) eq_refl eq_refl eq_refl Hq)
    as (fuel & s' & called & Hrun & Hexit & Hjoin & Hq' & Hcalled).
  destruct Hpc as [->|[e0 ->]].
  - by exists fuel, s', called.
  - exists (S fuel), s', (e0 :: called).
    assert (raises e0 = false) as He0.
    { apply Hok. unfold calling. simpl. by left. }
    split; [|repeat split; try done].
    + simpl. rewrite He0. unfold action_done, set_worker. simpl.
      by rewrite Hrun.
    + unfold calling. simpl. by rewrite Hcalled.
Qed.

(** The join event is set by the last step of the worker only: while
    it is clear, a run that ends with it set ends with the worker gone. *)
Lemma worker_run_joined fuel : forall s s' called,
  _join_event s = false ->
  worker_run raises fuel s = (s', called) ->
  _join_event s' = true -> worker s' = Exited.
Proof.
  induction fuel as [|fuel IH]; intros s s' called Hj Hrun Hj'.
  - simpl in Hrun. simplify_eq. congruence.
  - simpl in Hrun. destruct s as [q fin j pc t]. simpl in Hj. subst j.
    destruct pc; simpl in Hrun;
      try (simplify_eq; simpl in Hj'; congruence).
    + unfold worker_step in Hrun. simpl in Hrun. destruct fin.
      * rewrite worker_run_exited in Hrun by done. by simplify_eq.
      * by eapply IH; [|exact Hrun|].
    + unfold worker_step in Hrun. simpl in Hrun.
      destruct (heap_top q) as [e|]; [destruct (t <? time e)%Z|];
        by eapply IH; [|exact Hrun|].
    + destruct (worker_run raises fuel _) as [s2 called2] eqn:Hrun2.
      simplify_eq. eapply IH; [|exact Hrun2|done].
      unfold action_done. simpl. by destruct (raises e).
    + unfold worker_step in Hrun. simpl in Hrun.
      destruct fin; by eapply IH; [|exact Hrun|].
Qed.

End WorkerFacts.

(** C3 as stated fails: with a build pending and the worker inside
    [sched.run()], [stop] leaves the timer in the queue, and the worker
    then sleeps until it is due and calls it before it exits. *)
Lemma stop_keeps_and_runs_pending_timer :
  Demo.waiting = mkEventScheduler [] false false Waiting 0
  /\ Demo.pending = mkEventScheduler [mkEvent 5 1 "proj"] false false InRun 0
  /\ _queue (stop Demo.pending) = [mkEvent 5 1 "proj"]
  /\ worker_run Demo.never_raises 6 (stop Demo.pending)
     = (mkEventScheduler [] true true Exited 5, [mkEvent 5 1 "proj"])
  (* the same on a whole server: the build pending when [shutdown] is
     called has run, five ticks later, by the time [shutdown] returns *)
  /\ pending_timers "proj" Demo.busy_server = [mkEvent 5 1 "proj"]
  /\ world Demo.busy_server = ["true_cmd"]
  /\ world <$> shutdown Demo.cfg_script Demo.local 10 Demo.busy_server
     = Some ["true_cmd"; "true_cmd"]
  /\ _scheduler <$> shutdown Demo.cfg_script Demo.local 10 Demo.busy_server
     = Some (mkEventScheduler [] true true Exited 5).
Proof. repeat split; by vm_compute. Qed.

(** ** The watcher and the registry *)

Section ServerFacts.
Context {UserConfig Config World : Type}.
Variable ProjectConfig : UserConfig -> Config.
Variable config_script : Config -> list string.
Variable config_build_timeout : Config -> Z.
Variable local : string -> string -> World -> LocalResult * World.

Local Abbreviation Server := (WatsonServer Config World).
Local Abbreviation Watcher := (ProjectWatcher Config).

Lemma view_lookup (m m' : gmap string Watcher) key w :
  view <$> (m' !! key) = view <$> (m !! key) ->
  m' !! key = Some w ->
  exists w0, m !! key = Some w0 /\ name w0 = name w /\ _event w0 = _event w.
Proof.
  intros Hv Hw. rewrite Hw in Hv. simpl in Hv.
  destruct (m !! key) as [w0|]; [|done]. simpl in Hv.
  unfold view in Hv. exists w0. by simplify_eq.
Qed.

(** The invariant only depends on the queue, on the event being called
    and on the names and handles of the registered watchers. *)
Lemma server_inv_ext (s s' : Server) :
  _queue (_scheduler s') = _queue (_scheduler s) ->
  calling (_scheduler s') = calling (_scheduler s) ->
  (forall key, view <$> (_projects s' !! key) = view <$> (_projects s !! key)) ->
  server_inv s -> server_inv s'.
Proof.
  intros Hq Hc Hv [Hname Hhandle Hqueue Hone Hcalling].
  assert (forall key, pending_timers key s' = pending_timers key s) as Hp.
  { intros key. unfold pending_timers. by rewrite Hq. }
  assert (forall key w, _projects s !! key = Some w ->
            exists w', _projects s' !! key = Some w'
                       /\ name w' = name w /\ _event w' = _event w) as Hback.
  { intros key w Hw. specialize (Hv key). rewrite Hw in Hv. simpl in Hv.
    destruct (_projects s' !! key) as [w'|]; simpl in Hv; [|done].
    exists w'. unfold view in Hv. by simplify_eq. }
  constructor.
  - intros key w Hw.
    destruct (view_lookup _ _ _ _ (Hv key) Hw) as (w0 & Hw0 & <- & _). eauto.
  - intros key w e Hw He. rewrite Hq, Hc.
    destruct (view_lookup _ _ _ _ (Hv key) Hw) as (w0 & Hw0 & _ & Hev).
    apply (Hhandle key w0); congruence.
  - intros e He. rewrite Hq in He.
    destruct (Hqueue e He) as (w & Hw & Hev).
    destruct (Hback _ _ Hw) as (w' & Hw' & _ & Hev'). exists w'.
    split; [done | congruence].
  - intros key. rewrite Hp. apply Hone.
  - intros e He. rewrite Hc in He. rewrite Hp.
    destruct (Hcalling e He) as (Hnil & w & Hw & Hev).
    split; [done|].
    destruct (Hback _ _ Hw) as (w' & Hw' & _ & Hev'). exists w'.
    split; [done | congruence].
Qed.

Lemma insert_same_view (m : gmap string Watcher) key w w' k :
  m !! key = Some w -> view w' = view w ->
  view <$> (<[key := w']> m !! k) = view <$> (m !! k).
Proof.
  intros Hw Hv. rewrite lookup_insert. case_decide; [|done].
  subst. rewrite Hw. simpl. by rewrite Hv.
Qed.

Lemma notify_queue sch : _queue (notify sch) = _queue sch.
Proof. unfold notify. by destruct (worker sch). Qed.

Lemma notify_now sch : now (notify sch) = now sch.
Proof. unfold notify. by destruct (worker sch). Qed.

Lemma notify_calling sch : calling (notify sch) = calling sch.
Proof. unfold notify, calling. destruct sch as [q f j [] t]; done. Qed.

Lemma stop_queue sch : _queue (stop sch) = _queue sch.
Proof. unfold stop. by rewrite notify_queue. Qed.

Lemma stop_calling sch : calling (stop sch) = calling sch.
Proof. unfold stop. rewrite notify_calling. by destruct sch. Qed.

(** Timers of one watcher in a queue from which one timer is taken. *)
Lemma timers_after_removal key (q q1 : list Event) e :
  q ≡ₚ e :: q1 ->
  length (filter (fun x => action x = key) q1)
  <= length (filter (fun x => action x = key) q).
Proof.
  intros Hp. rewrite Hp, filter_cons. case_decide; simpl; lia.
Qed.

Lemma no_timer_after_removal (q q1 : list Event) e :
  q ≡ₚ e :: q1 ->
  length (filter (fun x => action x = action e) q) <= 1 ->
  filter (fun x => action x = action e) q1 = [].
Proof.
  intros Hp. rewrite Hp, filter_cons_True by done. simpl. intros Hlen.
  apply nil_length_inv. lia.
Qed.

Lemma elem_of_after_removal (q q1 : list Event) e x :
  q ≡ₚ e :: q1 -> x ∈ q -> x <> e -> x ∈ q1.
Proof.
  intros Hp Hx Hne. rewrite Hp in Hx. by apply elem_of_cons in Hx as [?|?].
Qed.

Lemma elem_of_before_removal (q q1 : list Event) e x :
  q ≡ₚ e :: q1 -> x ∈ q1 -> x ∈ q.
Proof. intros Hp Hx. rewrite Hp. by right. Qed.

Lemma server_inv_init t0 (w0 : World) :
  server_inv (WatsonServer_init t0 w0 : Server).
Proof.
  constructor; simpl; try done.
  - intros e He. by apply elem_of_nil in He.
  - intros key. unfold pending_timers. simpl. lia.
Qed.

(** [schedule_build] through the registry, by cases. *)
Lemma project_schedule_build_cases key timeout (s : Server) :
  match _projects s !! key with
  | None =>
      project_schedule_build config_build_timeout key timeout s
      = (inl KeyError, s)
  | Some w =>
      let delay := match timeout with
                   | None => config_build_timeout (_config w)
                   | Some t => t
                   end in
      let ev := mkEvent (now (_scheduler s) + delay) 1 (name w) in
      match _event w with
      | None =>
          project_schedule_build config_build_timeout key timeout s
          = (inr tt, armed s key w (_queue (_scheduler s)) ev)
      | Some e0 =>
          match remove_first e0 (_queue (_scheduler s)) with
          | Some q1 =>
              project_schedule_build config_build_timeout key timeout s
              = (inr tt, armed s key w q1 ev)
          | None =>
              project_schedule_build config_build_timeout key timeout s
              = (inl ValueError,
                 set_scheduler (notify (_scheduler s))
                   (set_projects (<[key := w]> (_projects s)) s))
          end
      end
  end.
Proof.
  unfold project_schedule_build.
  destruct (_projects s !! key) as [w|]; [|done].
  unfold schedule_build, schedule, cancel, enter, armed.
  destruct (_event w) as [e0|].
  - rewrite notify_queue.
    destruct (remove_first e0 (_queue (_scheduler s))) as [q1|]; [|done].
    simpl. by rewrite notify_now.
  - simpl. by rewrite notify_now, notify_queue.
Qed.

Lemma armed_queue (s : Server) key w q1 ev :
  _queue (_scheduler (armed s key w q1 ev)) = q1 ++ [ev].
Proof. done. Qed.

Lemma armed_calling (s : Server) key w q1 ev :
  calling (_scheduler (armed s key w q1 ev)) = calling (_scheduler s).
Proof.
  unfold armed. simpl. rewrite <- (notify_calling (_scheduler s)).
  by destruct (notify (_scheduler s)).
Qed.

Lemma armed_projects (s : Server) key w q1 ev :
  _projects (armed s key w q1 ev)
  = <[key := set_event (Some ev) w]> (_projects s).
Proof. done. Qed.

(** A registered watcher has no timer left in the queue once the one
    it holds the handle of, if any, is taken out. *)
Lemma own_timers_gone (s : Server) key w q1 :
  server_inv s ->
  _projects s !! key = Some w ->
  match _event w with
  | Some e0 => _queue (_scheduler s) ≡ₚ e0 :: q1
  | None => q1 = _queue (_scheduler s)
  end ->
  filter (fun x => action x = key) q1 = [].
Proof.
  intros [Hname Hhandle Hqueue Hone Hcalling] Hw Hq1.
  destruct (_event w) as [e0|] eqn:He0.
  - destruct (Hhandle key w e0 Hw He0) as [Ha _]. rewrite <- Ha.
    eapply no_timer_after_removal; [exact Hq1|]. rewrite Ha. apply Hone.
  - subst q1. destruct (filter _ _) as [|x l] eqn:Hf; [done|].
    assert (x ∈ filter (fun x => action x = key) (_queue (_scheduler s)))
      as Hx by (rewrite Hf; by left).
    apply list_elem_of_filter in Hx as [Hax Hx].
    destruct (Hqueue x Hx) as (w' & Hw' & Hev'). rewrite Hax in Hw'.
    congruence.
Qed.

(** Arming a timer for a watcher whose previous timer, if it had one,
    has just been taken out of the queue keeps the invariant. *)
Lemma server_inv_armed (s : Server) key w q1 ev :
  server_inv s ->
  _projects s !! key = Some w ->
  match _event w with
  | Some e0 => _queue (_scheduler s) ≡ₚ e0 :: q1
  | None => q1 = _queue (_scheduler s)
  end ->
  action ev = name w ->
  server_inv (armed s key w q1 ev).
Proof.
  intros Hinv Hw Hq1 Hev.
  pose proof (own_timers_gone s key w q1 Hinv Hw Hq1) as Hnone.
  destruct Hinv as [Hname Hhandle Hqueue Hone Hcalling].
  pose proof (Hname key w Hw) as Hkey. rewrite Hkey in Hev.
  assert (forall x, x ∈ q1 -> x ∈ _queue (_scheduler s)) as Hsub.
  { intros x Hx. destruct (_event w); [|by subst].
    by eapply elem_of_before_removal. }
  assert (forall k, length (filter (fun x => action x = k) q1)
                    <= length (filter (fun x => action x = k)
                                      (_queue (_scheduler s)))) as Hlen.
  { intros k. destruct (_event w); [|by subst].
    by eapply timers_after_removal. }
  assert (forall x, x ∈ _queue (_scheduler s) -> action x <> key -> x ∈ q1)
    as Hkeep.
  { intros x Hx Hne. destruct (_event w) as [e0|] eqn:He0; [|by subst].
    eapply elem_of_after_removal; [exact Hq1|done|].
    intros ->. by destruct (Hhandle key w e0 Hw He0) as [Ha _]. }
  constructor; unfold pending_timers;
    rewrite ?armed_queue, ?armed_calling, ?armed_projects.
  - intros k w' Hw'. rewrite lookup_insert in Hw'.
    case_decide; simplify_eq; [done | eauto].
  - intros k w' e Hw' He. rewrite lookup_insert in Hw'.
    case_decide; simplify_eq.
    + simpl in He. simplify_eq. split; [done|]. left.
      apply elem_of_app. right. by apply list_elem_of_singleton.
    + destruct (Hhandle k w' e Hw' He) as [Ha [Hin|Hcall]];
        (split; [done|]); [left | by right].
      apply elem_of_app. left. apply Hkeep; [done | congruence].
  - intros e He. apply elem_of_app in He as [He|He].
    + destruct (Hqueue e (Hsub e He)) as (w' & Hw' & He').
      assert (action e <> key) as Hne.
      { intros Ha. assert (e ∈ filter (fun x => action x = key) q1) as Hf
          by (by apply list_elem_of_filter).
        rewrite Hnone in Hf. by apply elem_of_nil in Hf. }
      exists w'. by rewrite lookup_insert_ne.
    + apply list_elem_of_singleton in He as ->. rewrite Hev.
      exists (set_event (Some ev) w). by rewrite lookup_insert_eq.
  - intros k. rewrite ?armed_queue, filter_app, length_app.
    destruct (decide (k = key)) as [->|Hne].
    + rewrite Hnone, filter_cons_True by done. simpl. lia.
    + rewrite filter_cons_False by congruence. simpl.
      specialize (Hlen k). specialize (Hone k). unfold pending_timers in Hone.
      lia.
  - intros e He. rewrite ?armed_queue.
    destruct (Hcalling e He) as (Hnil & w' & Hw' & He').
    assert (action e <> key) as Hne.
    { intros Ha. rewrite Ha in Hw'. simplify_eq.
      rewrite He' in Hq1. destruct (Hhandle _ _ _ Hw He') as [Ha' _].
      assert (e ∈ pending_timers (action e) s) as Hin.
      { apply list_elem_of_filter. split; [done|]. rewrite Hq1. by left. }
      rewrite Hnil in Hin. by apply elem_of_nil in Hin. }
    split.
    + rewrite filter_app, filter_cons_False by congruence.
      rewrite app_nil_r. apply nil_length_inv.
      specialize (Hlen (action e)). unfold pending_timers in Hnil.
      rewrite Hnil in Hlen. simpl in Hlen. lia.
    + exists w'. by rewrite lookup_insert_ne.
Qed.

Lemma server_inv_schedule_build key timeout (s : Server) :
  server_inv s ->
  server_inv (project_schedule_build config_build_timeout key timeout s).2.
Proof.
  intros Hinv. pose proof (project_schedule_build_cases key timeout s) as Hc.
  destruct (_projects s !! key) as [w|] eqn:Hw; [|by rewrite Hc].
  simpl in Hc. destruct (_event w) as [e0|] eqn:He0.
  - destruct (remove_first e0 (_queue (_scheduler s))) as [q1|] eqn:Hq1;
      rewrite Hc; simpl.
    + apply server_inv_armed; [done..| |done].
      rewrite He0. by apply remove_first_perm.
    + eapply server_inv_ext; [| | |exact Hinv]; simpl.
      * apply notify_queue.
      * apply notify_calling.
      * intros k. by eapply insert_same_view.
  - rewrite Hc. simpl. apply server_inv_armed; [done..| |done].
    by rewrite He0.
Qed.

(** The scheduler's own worker steps either leave the queue alone or
    pop its top event and start calling it. *)
Lemma worker_step_cases sch sch' :
  worker_step sch = Some sch' ->
  calling sch = None
  /\ ((_queue sch' = _queue sch /\ calling sch' = None)
      \/ exists e, heap_top (_queue sch) = Some e
                   /\ _queue sch' = heappop (_queue sch)
                   /\ calling sch' = Some e).
Proof.
  destruct sch as [q fin j pc t]. unfold worker_step, calling. simpl.
  destruct pc; try done; intros H.
  - destruct fin; simplify_eq; eauto.
  - destruct (heap_top q) as [e|] eqn:Htop; [|simplify_eq; eauto].
    destruct (t <? time e)%Z; simplify_eq; simpl; [eauto|].
    split; [done|]. right. by exists e.
  - destruct fin; simpl in H; simplify_eq; eauto.
Qed.

Lemma server_inv_pop (s : Server) sch' e :
  server_inv s ->
  calling (_scheduler s) = None ->
  heap_top (_queue (_scheduler s)) = Some e ->
  _queue sch' = heappop (_queue (_scheduler s)) ->
  calling sch' = Some e ->
  server_inv (set_scheduler sch' s).
Proof.
  intros [Hname Hhandle Hqueue Hone Hcalling] Hnc Htop Hq' Hc'.
  pose proof (heappop_perm _ _ Htop) as Hperm.
  constructor; unfold pending_timers; simpl; rewrite ?Hq', ?Hc'.
  - done.
  - intros key w e1 Hw He1.
    destruct (Hhandle key w e1 Hw He1) as [Ha [Hin|Hcall]]; [|congruence].
    split; [done|]. destruct (decide (e1 = e)) as [->|Hne]; [by right|].
    left. by eapply elem_of_after_removal.
  - intros e1 He1. apply Hqueue. by eapply elem_of_before_removal.
  - intros key. etrans; [by eapply timers_after_removal | apply Hone].
  - intros e1 He1. simplify_eq. split.
    + eapply no_timer_after_removal; [done | apply Hone].
    + apply Hqueue. by apply heap_top_elem.
Qed.

(** [build] clears the handle and keeps everything [set_config] keeps. *)
Lemma build_fields (w : Watcher) (wld : World) :
  let w' := (build config_script local w wld).1.2 in
  _event w' = None /\ name w' = name w /\ working_dir w' = working_dir w
  /\ _config w' = _config w /\ _watch w' = _watch w.
Proof.
  unfold build.
  destruct (execute_script local _ _ wld) as [[b [r|]] wld']; simpl; done.
Qed.

Lemma calling_Some sch e : calling sch = Some e <-> worker sch = Calling e.
Proof. unfold calling. destruct (worker sch); split; congruence. Qed.

Lemma action_done_calling raised sch e :
  calling sch = Some e ->
  calling (action_done raised sch) = None
  /\ _queue (action_done raised sch) = _queue sch.
Proof.
  intros H. apply calling_Some in H. unfold action_done, calling.
  rewrite H. by destruct raised.
Qed.

Lemma server_inv_call_action (s : Server) e :
  server_inv s ->
  calling (_scheduler s) = Some e ->
  server_inv (call_action config_script local e s).
Proof.
  intros [Hname Hhandle Hqueue Hone Hcalling] Hc.
  destruct (Hcalling e Hc) as (Hnil & w & Hw & He).
  unfold call_action. rewrite Hw.
  pose proof (build_fields w (world s)) as Hb.
  destruct (build config_script local w (world s)) as [[r w'] wld'].
  simpl in Hb. destruct Hb as (He' & Hn' & _).
  set (raised := if r is inl _ then true else false).
  destruct (action_done_calling raised _ _ Hc) as [Hc' Hq'].
  constructor; unfold pending_timers; simpl; rewrite ?Hq', ?Hc'.
  - intros key w1 Hw1. rewrite lookup_insert in Hw1.
    case_decide; simplify_eq; [|eauto]. rewrite Hn'. eauto.
  - intros key w1 e1 Hw1 He1. rewrite lookup_insert in Hw1.
    case_decide; simplify_eq.
    destruct (Hhandle _ w1 e1 Hw1 He1) as [Ha [Hin|Hcall]];
      [by eauto | congruence].
  - intros e1 He1. destruct (Hqueue e1 He1) as (w1 & Hw1 & Hev1).
    assert (action e1 <> action e) as Hne.
    { intros Ha. assert (e1 ∈ pending_timers (action e) s) as Hin
        by (by apply list_elem_of_filter).
      rewrite Hnil in Hin. by apply elem_of_nil in Hin. }
    exists w1. by rewrite lookup_insert_ne.
  - apply Hone.
  - done.
Qed.

Lemma server_inv_worker_step (s s' : Server) :
  server_inv s ->
  server_worker_step config_script local s = Some s' ->
  server_inv s'.
Proof.
  intros Hinv. unfold server_worker_step.
  destruct (worker (_scheduler s)) eqn:Hpc;
    try (destruct (worker_step (_scheduler s)) as [sch'|] eqn:Hstep; [|done];
         intros [= <-];
         destruct (worker_step_cases _ _ Hstep)
           as [Hnc [[Hq Hc]|(e & Htop & Hq & Hc)]];
         [ by eapply server_inv_ext; [| | |exact Hinv]; simpl; [|congruence|]
         | by eapply server_inv_pop ]).
  intros [= <-]. apply server_inv_call_action; [done|]. by apply calling_Some.
Qed.

(** Registering a new watcher, which holds no handle yet. *)
Lemma server_inv_registered (s : Server) key (w0 : Watcher) o :
  server_inv s ->
  _projects s !! key = None ->
  name w0 = key -> _event w0 = None ->
  server_inv (set_observer o (set_projects (<[key := w0]> (_projects s)) s)).
Proof.
  intros [Hname Hhandle Hqueue Hone Hcalling] Hw Hn He.
  constructor; unfold pending_timers; simpl.
  - intros k w1 Hw1. rewrite lookup_insert in Hw1.
    case_decide; simplify_eq; [done | eauto].
  - intros k w1 e1 Hw1 He1. rewrite lookup_insert in Hw1.
    case_decide; simplify_eq; eauto.
  - intros e1 He1. destruct (Hqueue e1 He1) as (w1 & Hw1 & Hev1).
    exists w1. rewrite lookup_insert_ne; [done | congruence].
  - apply Hone.
  - intros e1 He1. destruct (Hcalling e1 He1) as (Hnil & w1 & Hw1 & Hev1).
    split; [done|]. exists w1. rewrite lookup_insert_ne; [done | congruence].
Qed.

Lemma server_inv_add_project working_dir config (s : Server) :
  server_inv s ->
  server_inv (add_project ProjectConfig config_build_timeout
                          working_dir config s).2.
Proof.
  intros Hinv. unfold add_project. apply server_inv_schedule_build.
  destruct (_projects s !! get_project_name working_dir) as [w|] eqn:Hw.
  - apply (server_inv_ext s); [done|done| |done]. simpl.
    intros k. by eapply insert_same_view.
  - by apply server_inv_registered.
Qed.

(** Every step of the server keeps the invariant. *)
Lemma server_inv_step (s s' : Server) :
  server_inv s ->
  step ProjectConfig config_script config_build_timeout local s s' ->
  server_inv s'.
Proof.
  intros Hinv Hstep. destruct Hstep.
  - by apply (server_inv_ext s).
  - by eapply server_inv_worker_step.
  - by apply server_inv_schedule_build.
  - by apply server_inv_schedule_build.
  - unfold project_set_config.
    destruct (_projects s !! key) as [w|] eqn:Hw; [|done].
    apply (server_inv_ext s); [done|done| |done]. simpl.
    intros k. by eapply insert_same_view.
  - by apply (server_inv_ext s).
  - by apply server_inv_add_project.
  - apply (server_inv_ext s); simpl; [apply stop_queue|apply stop_calling|done..].
Qed.

Lemma server_inv_reachable t0 w0 (s : Server) :
  reachable ProjectConfig config_script config_build_timeout local t0 w0 s ->
  server_inv s.
Proof.
  induction 1 as [|s s' _ IH Hstep]; [apply server_inv_init|].
  by eapply server_inv_step.
Qed.

(** Taking a timer out of the queue does not disturb the timers of
    other watchers, nor their order. *)
Lemma filter_remove_first_other key (q q1 : list Event) e0 :
  remove_first e0 q = Some q1 -> action e0 <> key ->
  filter (fun x => action x = key) q1 = filter (fun x => action x = key) q.
Proof.
  revert q1. induction q as [|x q IH]; intros q1 Hrm Hne; simpl in Hrm; [done|].
  destruct (decide (x = e0)) as [->|Hx]; simplify_eq.
  - by rewrite filter_cons_False.
  - destruct (remove_first e0 q) as [q'|]; [|done]. simplify_eq.
    rewrite !filter_cons, (IH q' eq_refl Hne). done.
Qed.

(** [schedule_build] on a registered watcher whose handle, if it holds
    one, is still queued: the old timer is taken out, a new one is
    queued for the requested delay (the configured one by default) from
    now, and it becomes the handle.  The watcher then has exactly that
    timer pending; the timers of the others are as before. *)
Lemma schedule_build_rearms key timeout (s : Server) w :
  server_inv s ->
  _projects s !! key = Some w ->
  (forall e0, _event w = Some e0 -> e0 ∈ _queue (_scheduler s)) ->
  let delay := match timeout with
               | None => config_build_timeout (_config w)
               | Some t => t
               end in
  let ev := mkEvent (now (_scheduler s) + delay) 1 key in
  exists q1,
    match _event w with
    | Some e0 => remove_first e0 (_queue (_scheduler s)) = Some q1
    | None => q1 = _queue (_scheduler s)
    end
    /\ project_schedule_build config_build_timeout key timeout s
       = (inr tt, armed s key w q1 ev)
    /\ pending_timers key (armed s key w q1 ev) = [ev]
    /\ forall k, k <> key ->
         pending_timers k (armed s key w q1 ev) = pending_timers k s.
Proof.
  intros Hinv Hw Hlive delay ev.
  pose proof (project_schedule_build_cases key timeout s) as Hc.
  rewrite Hw in Hc. simpl in Hc.
  rewrite (inv_name s Hinv key w Hw) in Hc. fold delay ev in Hc.
  assert (exists q1,
    match _event w with
    | Some e0 => remove_first e0 (_queue (_scheduler s)) = Some q1
    | None => q1 = _queue (_scheduler s)
    end) as [q1 Hq1].
  { destruct (_event w) as [e0|]; [|eauto].
    apply remove_first_Some. by apply Hlive. }
  exists q1. split; [done|].
  assert (match _event w with
          | Some e0 => _queue (_scheduler s) ≡ₚ e0 :: q1
          | None => q1 = _queue (_scheduler s)
          end) as Hperm.
  { destruct (_event w); [by apply remove_first_perm | done]. }
  pose proof (own_timers_gone s key w q1 Hinv Hw Hperm) as Hnone.
  split; [|split].
  - destruct (_event w) as [e0|]; [by rewrite Hq1 in Hc | by subst].
  - unfold pending_timers. rewrite armed_queue, filter_app, Hnone.
    by rewrite filter_cons_True.
  - intros k Hk. unfold pending_timers.
    rewrite armed_queue, filter_app, filter_cons_False, app_nil_r
      by (simpl; congruence).
    destruct (_event w) as [e0|] eqn:He0; [|by subst].
    eapply filter_remove_first_other; [done|].
    destruct (inv_handle s Hinv key w e0 Hw He0) as [Ha _]. congruence.
Qed.

(** C8.  [set_config] replaces the stored configuration and nothing
    else: the pending timer handle, the name, the working directory,
    the last status, the notification and the watch of the watcher are
    as before.  Done through the registry, it leaves the scheduler (the
    queue with the pending timer, the clock, the worker), the observer
    and its watches, and every other watcher untouched. *)
Theorem set_config_replaces_only_the_config (user_config : UserConfig)
    (w : Watcher) (key : string) (s : Server) :
  let w' := set_config ProjectConfig user_config w in
  let s' := (project_set_config ProjectConfig key user_config s).2 in
  (_config w' = ProjectConfig user_config
   /\ _event w' = _event w
   /\ name w' = name w
   /\ working_dir w' = working_dir w
   /\ _last_status w' = _last_status w
   /\ _notification w' = _notification w
   /\ _watch w' = _watch w)
  /\ (_projects s' = alter (set_config ProjectConfig user_config) key (_projects s)
     /\ _scheduler s' = _scheduler s
     /\ _observer s' = _observer s
     /\ api_closed s' = api_closed s
     /\ world s' = world s
     /\ displayed s' = displayed s).
Proof.
  intros w' s'. split; [done|].
  unfold s', project_set_config.
  destruct (_projects s !! key) as [w0|] eqn:Hw0; simpl; repeat split.
  - apply map_eq. intros k. rewrite lookup_insert, lookup_alter.
    case_decide; [|done]. subst. by rewrite Hw0.
  - apply map_eq. intros k. rewrite lookup_alter.
    case_decide; [|done]. subst. by rewrite Hw0.
Qed.

(** [add_project] on a server whose worker is not in the middle of
    calling this project's build: it succeeds, the registry holds one
    watcher under the project name, and exactly one timer with delay 0
    is pending for it. *)
Lemma add_project_ok working_dir config (s : Server) :
  let key := get_project_name working_dir in
  let w0 := match _projects s !! key with
            | Some w => set_config ProjectConfig config w
            | None => (ProjectWatcher_init ProjectConfig config working_dir
                                           (_observer s)).1
            end in
  let ev := mkEvent (now (_scheduler s) + 0) 1 key in
  server_inv s ->
  (forall e, calling (_scheduler s) = Some e -> action e <> key) ->
  exists s',
    add_project ProjectConfig config_build_timeout working_dir config s
    = (inr tt, s')
    /\ server_inv s'
    /\ _projects s' = <[key := set_event (Some ev) w0]> (_projects s)
    /\ pending_timers key s' = [ev]
    /\ (forall k, k <> key -> pending_timers k s' = pending_timers k s)
    /\ _handlers (_observer s')
       = _handlers (_observer s)
         ++ match _projects s !! key with
            | Some _ => []
            | None => [(mkObservedWatch working_dir true, key)]
            end
    /\ now (_scheduler s') = now (_scheduler s)
    /\ calling (_scheduler s') = calling (_scheduler s).
Proof.
  intros key w0 ev Hinv Hnc.
  pose proof (server_inv_add_project working_dir config s Hinv) as Hinv'.
  unfold add_project in *. fold key in Hinv' |- *.
  destruct (_projects s !! key) as [w|] eqn:Hw.
  - subst w0. set (w0 := set_config ProjectConfig config w) in *.
    set (s1 := set_projects (<[key := w0]> (_projects s)) s) in *.
    assert (server_inv s1) as Hinv1.
    { apply (server_inv_ext s); [done|done| |done]. simpl.
      intros k. by eapply insert_same_view. }
    destruct (schedule_build_rearms key (Some 0%Z) s1 w0 Hinv1)
      as (q1 & Hq1 & Heq & Hown & Hother).
    { apply lookup_insert_eq. }
    { intros e0 He0. simpl in He0.
      destruct (inv_handle s Hinv key w e0 Hw He0) as [Ha [Hin|Hc]]; [done|].
      by destruct (Hnc e0 Hc). }
    rewrite Heq in Hinv' |- *. eexists. split; [done|].
    split; [done|]. split; [|split; [done|split; [done|split; [|split]]]].
    + rewrite armed_projects. simpl. by rewrite insert_insert_eq.
    + simpl. by rewrite app_nil_r.
    + simpl. apply notify_now.
    + by rewrite armed_calling.
  - unfold ProjectWatcher_init, observer_schedule in *. simpl in *.
    fold key in w0, Hinv' |- *.
    subst w0. set (w0 := mkProjectWatcher _ _ _ _ _ _ _) in *.
    set (o := mkObserver _ _) in *.
    set (s1 := set_observer o (set_projects (<[key := w0]> (_projects s)) s))
      in *.
    assert (server_inv s1) as Hinv1 by (by apply server_inv_registered).
    destruct (schedule_build_rearms key (Some 0%Z) s1 w0 Hinv1)
      as (q1 & Hq1 & Heq & Hown & Hother).
    { apply lookup_insert_eq. }
    { done. }
    rewrite Heq in Hinv' |- *. eexists. split; [done|].
    split; [done|]. split; [|split; [done|split; [done|split; [|split]]]].
    + rewrite armed_projects. simpl. by rewrite insert_insert_eq.
    + done.
    + simpl. apply notify_now.
    + by rewrite armed_calling.
Qed.

(** As long as the calls of the methods do not overlap, at most one
    timer is queued for a watcher: in every state the server reaches by
    whole method calls and worker steps, the queue holds at most one
    timer per project (and it is the handle the watcher keeps), and
    every such step preserves this.  [schedule_build] hands the current
    handle to [schedule], which takes that timer out of the queue and
    then arms a new one a full delay from now, the only one pending for
    the watcher; and [build] clears the handle. *)
Theorem at_most_one_pending_timer :
  (forall t0 w0 (s : Server),
      reachable ProjectConfig config_script config_build_timeout local t0 w0 s ->
      server_inv s /\ forall key, length (pending_timers key s) <= 1)
  /\ (forall s s' : Server,
        server_inv s ->
        step ProjectConfig config_script config_build_timeout local s s' ->
        server_inv s')
  /\ (forall key timeout (s : Server) w,
        server_inv s ->
        _projects s !! key = Some w ->
        (forall e0, _event w = Some e0 -> e0 ∈ _queue (_scheduler s)) ->
        let delay := match timeout with
                     | None => config_build_timeout (_config w)
                     | Some t => t
                     end in
        let ev := mkEvent (now (_scheduler s) + delay) 1 key in
        exists q1,
          match _event w with
          | Some e0 => remove_first e0 (_queue (_scheduler s)) = Some q1
          | None => q1 = _queue (_scheduler s)
          end
          /\ project_schedule_build config_build_timeout key timeout s
             = (inr tt, armed s key w q1 ev)
          /\ pending_timers key (armed s key w q1 ev) = [ev]
          /\ forall k, k <> key ->
               pending_timers k (armed s key w q1 ev) = pending_timers k s)
  /\ (forall (w : Watcher) (wld : World),
        _event (build config_script local w wld).1.2 = None).
Proof.
  split; [|split; [|split]].
  - intros t0 w0 s Hreach.
    pose proof (server_inv_reachable t0 w0 s Hreach) as Hinv.
    split; [done | apply (inv_one s Hinv)].
  - apply server_inv_step.
  - apply schedule_build_rearms.
  - intros w wld. apply (build_fields w wld).
Qed.

(** Two [add_project] calls with the same working directory, one right
    after the other, on a server whose worker is not in the middle of
    calling that project's build: both succeed; after the first the
    registry holds one watcher
    under the project name, and the second neither adds a key nor a
    watch, so the registry keeps its size; the second call replaces the
    configuration and nothing else but the handle; and after each call
    exactly one timer is pending for the project, due at the time of the
    call plus 0. *)
Theorem add_project_twice_keeps_one_watcher working_dir c1 c2 (s : Server) :
  let key := get_project_name working_dir in
  server_inv s ->
  (forall e, calling (_scheduler s) = Some e -> action e <> key) ->
  exists s1 s2 w1 w2,
    add_project ProjectConfig config_build_timeout working_dir c1 s
    = (inr tt, s1)
    /\ add_project ProjectConfig config_build_timeout working_dir c2 s1
       = (inr tt, s2)
    /\ _projects s1 !! key = Some w1
    /\ _projects s2 !! key = Some w2
    /\ dom (_projects s1) = {[key]} ∪ dom (_projects s)
    /\ dom (_projects s2) = dom (_projects s1)
    /\ size (_projects s2) = size (_projects s1)
    /\ _handlers (_observer s2) = _handlers (_observer s1)
    /\ _config w1 = ProjectConfig c1
    /\ _config w2 = ProjectConfig c2
    /\ w2 = set_event (_event w2) (set_config ProjectConfig c2 w1)
    /\ _event w1 = Some (mkEvent (now (_scheduler s) + 0) 1 key)
    /\ pending_timers key s1 = [mkEvent (now (_scheduler s) + 0) 1 key]
    /\ _event w2 = Some (mkEvent (now (_scheduler s1) + 0) 1 key)
    /\ pending_timers key s2 = [mkEvent (now (_scheduler s1) + 0) 1 key].
Proof.
  intros key Hinv Hnc.
  destruct (add_project_ok working_dir c1 s Hinv Hnc)
    as (s1 & Hadd1 & Hinv1 & Hp1 & Hpend1 & _ & Hobs1 & Hnow1 & Hcall1).
  fold key in Hp1, Hpend1.
  assert (forall e, calling (_scheduler s1) = Some e -> action e <> key)
    as Hnc1 by (by rewrite Hcall1).
  destruct (add_project_ok working_dir c2 s1 Hinv1 Hnc1)
    as (s2 & Hadd2 & Hinv2 & Hp2 & Hpend2 & _ & Hobs2 & _).
  fold key in Hp2, Hpend2, Hobs2.
  assert (is_Some (_projects s1 !! key)) as [w1 Hw1]
    by (rewrite Hp1, lookup_insert_eq; eauto).
  rewrite Hw1 in Hp2, Hobs2. rewrite app_nil_r in Hobs2.
  eexists s1, s2, w1, _.
  split; [done|]. split; [done|]. split; [done|].
  split; [by rewrite Hp2, lookup_insert_eq|].
  split; [by rewrite Hp1, dom_insert_L|].
  split; [rewrite Hp2; by apply dom_insert_lookup_L|].
  split; [rewrite Hp2; by apply map_size_insert_Some|].
  split; [done|].
  rewrite Hp1, lookup_insert_eq in Hw1. simplify_eq.
  repeat split; try done.
  simpl. by destruct (_projects s !! key).
Qed.

(** C9.  Two distinct working directories with the same last component
    are one project: when the first is registered on a server that does
    not know the name, the second call finds the watcher of the first.
    It adds no key to the registry and no watch to the observer, so the
    second directory is not watched unless it already was; the watcher
    keeps the first directory as its working directory and its watch,
    and gets the new configuration. *)
Theorem add_project_same_name_keeps_first_directory dir1 dir2 c1 c2
    (s : Server) :
  let key := get_project_name dir1 in
  dir1 <> dir2 ->
  get_project_name dir1 = get_project_name dir2 ->
  server_inv s ->
  _projects s !! key = None ->
  exists s1 s2 w1 w2,
    add_project ProjectConfig config_build_timeout dir1 c1 s = (inr tt, s1)
    /\ add_project ProjectConfig config_build_timeout dir2 c2 s1 = (inr tt, s2)
    /\ _projects s1 !! key = Some w1
    /\ _projects s2 !! key = Some w2
    /\ dom (_projects s2) = dom (_projects s1)
    /\ size (_projects s2) = size (_projects s1)
    /\ _handlers (_observer s1)
       = _handlers (_observer s) ++ [(mkObservedWatch dir1 true, key)]
    /\ _handlers (_observer s2) = _handlers (_observer s1)
    /\ (forall h, (mkObservedWatch dir2 true, h) ∈ _handlers (_observer s2) ->
                  (mkObservedWatch dir2 true, h) ∈ _handlers (_observer s))
    /\ working_dir w1 = dir1
    /\ working_dir w2 = dir1
    /\ _watch w2 = mkObservedWatch dir1 true
    /\ name w2 = key
    /\ _config w2 = ProjectConfig c2
    /\ w2 = set_event (_event w2) (set_config ProjectConfig c2 w1).
Proof.
  intros key Hdirs Hsame Hinv Hfresh.
  assert (forall e, calling (_scheduler s) = Some e -> action e <> key) as Hnc.
  { intros e He Ha. destruct (inv_calling s Hinv e He) as (_ & w & Hw & _).
    congruence. }
  destruct (add_project_ok dir1 c1 s Hinv Hnc)
    as (s1 & Hadd1 & Hinv1 & Hp1 & _ & _ & Hobs1 & _ & Hcall1).
  fold key in Hp1, Hobs1. rewrite Hfresh in Hp1, Hobs1.
  assert (forall e, calling (_scheduler s1) = Some e ->
                    action e <> get_project_name dir2)
    as Hnc1 by (rewrite Hcall1, <- Hsame; exact Hnc).
  destruct (add_project_ok dir2 c2 s1 Hinv1 Hnc1)
    as (s2 & Hadd2 & Hinv2 & Hp2 & _ & _ & Hobs2 & _).
  rewrite <- Hsame in Hp2, Hobs2. fold key in Hp2, Hobs2.
  rewrite Hp1, lookup_insert_eq in Hp2, Hobs2. rewrite app_nil_r in Hobs2.
  rewrite <- Hp1 in Hp2.
  eexists s1, s2, _, _.
  split; [done|]. split; [done|].
  split; [by rewrite Hp1, lookup_insert_eq|].
  split; [by rewrite Hp2, lookup_insert_eq|].
  split; [rewrite Hp2; apply dom_insert_lookup_L;
          rewrite Hp1, lookup_insert_eq; eauto|].
  split; [rewrite Hp2; apply map_size_insert_Some;
          rewrite Hp1, lookup_insert_eq; eauto|].
  split; [done|]. split; [done|].
  split.
  { intros h Hh. rewrite Hobs2, Hobs1 in Hh.
    apply elem_of_app in Hh as [Hh|Hh]; [done|].
    apply list_elem_of_singleton in Hh. by simplify_eq. }
  by repeat split.
Qed.

(** *** Calls that overlap *)

Local Abbreviation dstep :=
  (daemon_step ProjectConfig config_script config_build_timeout local).
Local Abbreviation dmove :=
  (daemon_move ProjectConfig config_script config_build_timeout local).
Local Abbreviation run :=
  (run_moves ProjectConfig config_script config_build_timeout local).

Lemma add_project_unfold working_dir config (s : Server) :
  add_project ProjectConfig config_build_timeout working_dir config s
  = project_schedule_build config_build_timeout
      (get_project_name working_dir) (Some 0%Z)
      (add_project_register ProjectConfig working_dir config s).
Proof. reflexivity. Qed.

(** A schedule is a sequence of steps of the daemon. *)
Lemma run_moves_steps ms : forall d, rtc dstep d (run ms d).
Proof.
  induction ms as [|m ms IH]; intros d; simpl; [done|].
  destruct (dmove m d) as [d'|] eqn:Hm; simpl; [|apply IH].
  eapply rtc_l; [by exists m | apply IH].
Qed.

(** A call of [schedule_build] that no other thread interrupts does
    what [schedule_build] does as one step. *)
Lemma call_runs c key timeout (d : Daemon Config World) :
  run [Go c; Go c; Go c; Go c] (set_call c (Some (Entered key timeout)) d)
  = set_call c None
      (set_server
         (project_schedule_build config_build_timeout key timeout (server d)).2
         d).
Proof.
  destruct d as [[projs sch obs api wld disp] o r].
  unfold project_schedule_build, schedule_build. cbv zeta.
  change (_projects (server (mkDaemon (mkWatsonServer projs sch obs api wld disp)
                                      o r))) with projs.
  destruct (projs !! key) as [w|] eqn:Hw.
  - destruct (schedule (_event w)
                match timeout with
                | None => config_build_timeout (_config w)
                | Some t => t
                end (name w)
                (_scheduler (server (mkDaemon
                   (mkWatsonServer projs sch obs api wld disp) o r))))
      as [[exn|ev] sch'] eqn:Hs; simpl in Hs;
      destruct c; simpl; do 4 (rewrite ?Hw, ?Hs; simpl);
      by rewrite ?(insert_id _ _ _ Hw).
  - destruct c; simpl; by rewrite Hw.
Qed.

(** Every step of the server by whole method calls is a sequence of
    steps of the daemon, from no call under way to no call under way. *)
Lemma step_daemon_steps (s s' : Server) :
  step ProjectConfig config_script config_build_timeout local s s' ->
  rtc dstep (idle s) (idle s').
Proof.
  intros Hstep.
  destruct Hstep as [s d Hd|s s' H|s key|s key timeout|s key config
                    |s key w0 Hw0|s wd config|s].
  - apply rtc_once. exists (Tick d). simpl. by rewrite decide_True.
  - apply rtc_once. exists WorkerStep. simpl. by rewrite H.
  - pose proof (run_moves_steps
                  [ChangeEvent key; Go ObserverThread; Go ObserverThread;
                   Go ObserverThread; Go ObserverThread] (idle s)) as Hrun.
    change (run _ (idle s))
      with (run [Go ObserverThread; Go ObserverThread;
                 Go ObserverThread; Go ObserverThread]
              (set_call ObserverThread (Some (Entered key None)) (idle s)))
      in Hrun.
    by rewrite call_runs in Hrun.
  - pose proof (run_moves_steps
                  [ScheduleBuild RpcThread key timeout; Go RpcThread;
                   Go RpcThread; Go RpcThread; Go RpcThread] (idle s)) as Hrun.
    change (run _ (idle s))
      with (run [Go RpcThread; Go RpcThread; Go RpcThread; Go RpcThread]
              (set_call RpcThread (Some (Entered key timeout)) (idle s)))
      in Hrun.
    by rewrite call_runs in Hrun.
  - apply rtc_once. by exists (SetConfig key config).
  - apply rtc_once. exists (WatcherShutdown key). simpl. by rewrite Hw0.
  - pose proof (run_moves_steps
                  [AddProject wd config; Go RpcThread;
                   Go RpcThread; Go RpcThread; Go RpcThread] (idle s)) as Hrun.
    change (run _ (idle s))
      with (run [Go RpcThread; Go RpcThread; Go RpcThread; Go RpcThread]
              (set_call RpcThread
                 (Some (Entered (get_project_name wd) (Some 0%Z)))
                 (idle (add_project_register ProjectConfig wd config s))))
      in Hrun.
    rewrite call_runs in Hrun. by rewrite add_project_unfold.
  - apply rtc_once. by exists Shutdown.
Qed.

(** A watcher that holds no handle has no timer in the queue, and the
    worker is not calling its build. *)
Lemma no_handle_no_timer (s : Server) key w :
  server_inv s -> _projects s !! key = Some w -> _event w = None ->
  pending_timers key s = []
  /\ forall e, calling (_scheduler s) = Some e -> action e <> key.
Proof.
  intros Hinv Hw He. split.
  - destruct (pending_timers key s) as [|e l] eqn:Hp; [done|]. exfalso.
    assert (e ∈ pending_timers key s) as Hin by (rewrite Hp; by left).
    apply list_elem_of_filter in Hin as [Ha Hin].
    destruct (inv_queue s Hinv e Hin) as (w' & Hw' & He').
    rewrite Ha in Hw'. congruence.
  - intros e Hc Ha.
    destruct (inv_calling s Hinv e Hc) as (_ & w' & Hw' & He').
    rewrite Ha in Hw'. congruence.
Qed.

Lemma run_cons m ms (d : Daemon Config World) :
  run (m :: ms) d = run ms (default d (dmove m d)).
Proof. reflexivity. Qed.

Lemma run_nil (d : Daemon Config World) : run [] d = d.
Proof. reflexivity. Qed.

Local Opaque run_moves.

(** The state the overlapping calls end in. *)
Lemma overlapping_calls_run key working_dir config (s : Server) w :
  _projects s !! key = Some w ->
  _event w = None ->
  name w = key ->
  get_project_name working_dir = key ->
  let ev1 := mkEvent (now (_scheduler s) + config_build_timeout (_config w))
                     1 key in
  let ev2 := mkEvent (now (_scheduler s) + 0) 1 key in
  exists sch,
    run (overlapping_calls key working_dir config) (idle s)
    = idle (mkWatsonServer
              (<[key := set_event (Some ev2) (set_config ProjectConfig config w)]>
                 (_projects s))
              sch (_observer s) (api_closed s) (world s) (displayed s))
    /\ _queue sch = _queue (_scheduler s) ++ [ev1; ev2].
Proof.
  intros Hw He Hname Hkey ev1 ev2.
  destruct s as [projs sch obs api wld disp].
  simpl in *.
  eexists. split.
  - unfold overlapping_calls, idle.
    rewrite run_cons. simpl.
    rewrite run_cons. simpl. rewrite Hw. simpl.
    rewrite run_cons. simpl. rewrite Hw. simpl.
    rewrite run_cons. simpl. unfold add_project_register. simpl. rewrite Hkey, Hw. simpl.
    rewrite run_cons. simpl. rewrite lookup_insert_eq. simpl.
    rewrite run_cons. simpl. rewrite lookup_insert_eq. simpl.
    rewrite run_cons. simpl. rewrite lookup_insert_eq. simpl.
    rewrite He. simpl.
    rewrite run_cons. simpl. rewrite lookup_insert_eq. simpl.
    rewrite run_cons. simpl. rewrite lookup_insert_eq. simpl.
    rewrite run_cons. simpl. rewrite lookup_insert_eq. simpl.
    rewrite run_nil, !insert_insert_eq.
    unfold set_projects, set_scheduler. simpl.
    rewrite !notify_now. simpl. rewrite !notify_now, Hname.
    reflexivity.
  - simpl. rewrite ?notify_queue. simpl. rewrite ?notify_queue.
    by rewrite <- app_assoc.
Qed.

Local Transparent run_moves.

(** C2.  A change event delivered while [add_project] is served for
    the same project, the project holding no timer: the observer thread
    and the thread of the remote call both evaluate [self._event],
    which is [None], before either calls [schedule], so neither call
    cancels anything and each arms a timer.  Two timers of the watcher
    are then queued, one due a configured delay from now and one due at
    once; the watcher keeps the handle of the one stored last, the
    other is out of its reach.  (The same two calls made one after the
    other leave one timer.) *)
Theorem overlapping_schedule_builds_arm_two_timers key working_dir config
    (s : Server) w :
  server_inv s ->
  _projects s !! key = Some w ->
  _event w = None ->
  get_project_name working_dir = key ->
  let d := run (overlapping_calls key working_dir config) (idle s) in
  let ev1 := mkEvent (now (_scheduler s) + config_build_timeout (_config w))
                     1 key in
  let ev2 := mkEvent (now (_scheduler s) + 0) 1 key in
  rtc dstep (idle s) d
  /\ observer_call d = None
  /\ rpc_call d = None
  /\ pending_timers key s = []
  /\ pending_timers key (server d) = [ev1; ev2]
  /\ _projects (server d) !! key
     = Some (set_event (Some ev2) (set_config ProjectConfig config w))
  /\ ~ server_inv (server d)
  /\ pending_timers key
       (add_project ProjectConfig config_build_timeout working_dir config
          (on_any_event config_build_timeout key s).2).2
     = [ev2].
Proof.
  intros Hinv Hw He Hkey d ev1 ev2.
  destruct (no_handle_no_timer s key w Hinv Hw He) as [Hnone Hnc].
  pose proof (inv_name s Hinv key w Hw) as Hname.
  assert (observer_call d = None /\ rpc_call d = None
          /\ pending_timers key (server d) = [ev1; ev2]
          /\ _projects (server d) !! key
             = Some (set_event (Some ev2) (set_config ProjectConfig config w)))
    as (Ho & Hr & Hp & Hl).
  { destruct (overlapping_calls_run key working_dir config s w Hw He Hname Hkey)
      as (schf & Hrun & Hq).
    unfold d. rewrite Hrun. split; [done|]. split; [done|]. split.
    - unfold pending_timers in *. cbn [server idle _scheduler].
      rewrite Hq, filter_app, Hnone. cbn [app].
      by rewrite !filter_cons_True, filter_nil.
    - cbn [server idle _projects]. apply lookup_insert_eq. }
  split; [apply run_moves_steps|].
  split; [done|]. split; [done|]. split; [done|]. split; [done|].
  split; [done|]. split.
  - intros Hbad. pose proof (inv_one _ Hbad key) as Hone.
    rewrite Hp in Hone. simpl in Hone. lia.
  - destruct (schedule_build_rearms key None s w Hinv Hw) as
      (q1 & _ & Heq & _ & _); [by rewrite He|].
    pose proof (server_inv_schedule_build key None s Hinv) as Hinv1.
    unfold on_any_event. rewrite Heq in Hinv1 |- *. simpl.
    destruct (add_project_ok working_dir config (armed s key w q1
                 (mkEvent (now (_scheduler s) + config_build_timeout (_config w))
                          1 key)) Hinv1)
      as (s2 & Hadd & _ & _ & Hpend & _ & _).
    + rewrite Hkey, armed_calling. exact Hnc.
    + rewrite Hadd. simpl. rewrite Hkey in Hpend. rewrite Hpend.
      unfold ev2. f_equal. f_equal. f_equal.
      unfold armed. simpl. by rewrite notify_now.
Qed.

(** C6.  The second of two [add_project] calls for a working directory
    arrives when the worker has popped the project's timer (armed by
    the first call, and due at once) and [build] has not yet cleared
    the handle: the registry holds the one watcher and keeps its size,
    and the configuration is replaced; but [schedule_build(0)] hands
    the stale handle to [schedule], whose [cancel] raises [ValueError].
    The call fails, and no build is scheduled by it: no timer is
    pending for the project afterwards. *)
Theorem add_project_again_during_build_call_raises working_dir c2
    (s : Server) e :
  let key := get_project_name working_dir in
  server_inv s ->
  calling (_scheduler s) = Some e ->
  action e = key ->
  exists w,
    _projects s !! key = Some w
    /\ _event w = Some e
    /\ add_project ProjectConfig config_build_timeout working_dir c2 s
       = (inl ValueError,
          set_projects (<[key := set_config ProjectConfig c2 w]> (_projects s)) s)
    /\ size (<[key := set_config ProjectConfig c2 w]> (_projects s))
       = size (_projects s)
    /\ pending_timers key
         (add_project ProjectConfig config_build_timeout working_dir c2 s).2
       = []
    /\ _queue (_scheduler
                 (add_project ProjectConfig config_build_timeout
                    working_dir c2 s).2)
       = _queue (_scheduler s).
Proof.
  intros key Hinv Hc Ha.
  destruct (inv_calling s Hinv e Hc) as (Hnil & w & Hw & He).
  rewrite Ha in Hnil, Hw. exists w. split; [done|]. split; [done|].
  assert (add_project ProjectConfig config_build_timeout working_dir c2 s
          = (inl ValueError,
             set_projects (<[key := set_config ProjectConfig c2 w]> (_projects s))
                          s)) as Hadd.
  { unfold add_project. fold key. rewrite Hw.
    set (s1 := set_projects _ s).
    pose proof (project_schedule_build_cases key (Some 0%Z) s1) as Hcases.
    unfold s1 in Hcases at 1. simpl in Hcases.
    rewrite lookup_insert_eq in Hcases. simpl in Hcases. rewrite He in Hcases.
    assert (remove_first e (_queue (_scheduler s)) = None) as Hrm.
    { apply remove_first_None. intros Hin.
      assert (e ∈ pending_timers key s) as Hp
        by (by apply list_elem_of_filter).
      rewrite Hnil in Hp. by apply elem_of_nil in Hp. }
    rewrite Hrm in Hcases. rewrite Hcases. f_equal.
    unfold s1. simpl. rewrite insert_insert_eq.
    assert (notify (_scheduler s) = _scheduler s) as ->.
    { apply calling_Some in Hc. unfold notify. by rewrite Hc. }
    by destruct s. }
  split; [done|]. split; [by apply map_size_insert_Some|].
  rewrite Hadd. split; done.
Qed.

End ServerFacts.

(** The demo servers are states the server reaches. *)
Lemma demo_reachable_worker_steps n s :
  reachable Demo.ProjectConfig Demo.cfg_script Demo.cfg_timeout Demo.local
            0 [] s ->
  reachable Demo.ProjectConfig Demo.cfg_script Demo.cfg_timeout Demo.local
            0 [] (Demo.worker_steps n s).
Proof.
  intros Hs. induction n as [|n IH]; [done|].
  unfold Demo.worker_steps in *. simpl.
  destruct (server_worker_step Demo.cfg_script Demo.local _) as [s'|] eqn:Hstep;
    [|done].
  simpl. eapply reachable_step; [exact IH|]. by apply step_worker.
Qed.

Lemma demo_reachable_registered :
  reachable Demo.ProjectConfig Demo.cfg_script Demo.cfg_timeout Demo.local
            0 [] Demo.registered.
Proof.
  eapply reachable_step; [|apply step_add_project].
  apply demo_reachable_worker_steps, reachable_init.
Qed.

Lemma demo_reachable_busy :
  reachable Demo.ProjectConfig Demo.cfg_script Demo.cfg_timeout Demo.local
            0 [] Demo.busy_server.
Proof.
  apply demo_reachable_worker_steps.
  eapply reachable_step; [|apply step_on_any_event].
  apply demo_reachable_worker_steps, demo_reachable_registered.
Qed.

Lemma demo_reachable_calling :
  reachable Demo.ProjectConfig Demo.cfg_script Demo.cfg_timeout Demo.local
            0 [] Demo.calling_server.
Proof. apply demo_reachable_worker_steps, demo_reachable_registered. Qed.

Lemma demo_reachable_built :
  reachable Demo.ProjectConfig Demo.cfg_script Demo.cfg_timeout Demo.local
            0 [] Demo.built_server.
Proof. apply demo_reachable_worker_steps, demo_reachable_registered. Qed.

(** The demo server, freshly started, is in a state the two calls
    apply to. *)
Lemma add_project_twice_keeps_one_watcher_witness :
  exists s1 s2,
    Demo.add "/home/me/proj" (Demo.mkCfg ["true_cmd"] 5) Demo.server0
    = (inr tt, s1)
    /\ Demo.add "/home/me/proj" (Demo.mkCfg ["make"; "make test"] 2) s1
       = (inr tt, s2)
    /\ size (_projects s2) = size (_projects s1)
    /\ pending_timers "proj" s2 = [mkEvent 0 1 "proj"].
Proof.
  destruct (add_project_twice_keeps_one_watcher
              Demo.ProjectConfig Demo.cfg_timeout "/home/me/proj"
              (Demo.mkCfg ["true_cmd"] 5) (Demo.mkCfg ["make"; "make test"] 2)
              Demo.server0)
    as (s1 & s2 & w1 & w2 & H1 & H2 & _ & _ & _ & _ & Hsize & _ & _ & _ & _
        & _ & Hp1 & _ & Hp2).
  - apply server_inv_init.
  - discriminate.
  - exists s1, s2. repeat split; [exact H1 | exact H2 | exact Hsize |].
    etrans; [exact Hp2|].
    pose proof (f_equal snd H1) as Hs1. cbn [snd] in Hs1.
    rewrite <- Hs1. reflexivity.
Defined.

(** [/home/me/proj] and [/srv/proj] are one project to the server. *)
Lemma add_project_same_name_keeps_first_directory_witness :
  exists s1 s2 w2,
    Demo.add "/home/me/proj" (Demo.mkCfg ["true_cmd"] 5) Demo.server0
    = (inr tt, s1)
    /\ Demo.add "/srv/proj" (Demo.mkCfg ["make"] 2) s1 = (inr tt, s2)
    /\ _projects s2 !! "proj" = Some w2
    /\ working_dir w2 = "/home/me/proj"
    /\ _handlers (_observer s2) = [(mkObservedWatch "/home/me/proj" true, "proj")].
Proof.
  destruct (add_project_same_name_keeps_first_directory
              Demo.ProjectConfig Demo.cfg_timeout "/home/me/proj" "/srv/proj"
              (Demo.mkCfg ["true_cmd"] 5) (Demo.mkCfg ["make"] 2) Demo.server0)
    as (s1 & s2 & w1 & w2 & H1 & H2 & _ & Hw2 & _ & _ & Hobs1 & Hobs2 & _
        & _ & Hwd & _).
  - discriminate.
  - reflexivity.
  - apply server_inv_init.
  - reflexivity.
  - exists s1, s2, w2. repeat split; try done.
    by rewrite Hobs2, Hobs1.
Defined.

(** On the demo server with the project built once and nothing
    pending, a change event that overlaps a second [add_project] leaves
    two timers of the project in the queue. *)
Lemma overlapping_schedule_builds_arm_two_timers_witness :
  pending_timers "proj"
    (server (run_moves Demo.ProjectConfig Demo.cfg_script Demo.cfg_timeout
               Demo.local
               (overlapping_calls "proj" "/home/me/proj" (Demo.mkCfg ["make"] 2))
               (idle Demo.built_server)))
  = [mkEvent 5 1 "proj"; mkEvent 0 1 "proj"].
Proof.
  refine (proj1 (proj2 (proj2 (proj2 (proj2
    (overlapping_schedule_builds_arm_two_timers
       Demo.ProjectConfig Demo.cfg_script Demo.cfg_timeout Demo.local
       "proj" "/home/me/proj" (Demo.mkCfg ["make"] 2) Demo.built_server
       (mkProjectWatcher None "proj" "/home/me/proj"
          (Demo.mkCfg ["true_cmd"] 5)
          (Some (true, Some (mkLocalResult "ran true_cmd" "" true)))
          (mkNotification "proj back to normal" ("ran true_cmd" +:+ NL))
          (mkObservedWatch "/home/me/proj" true))
       _ _ _ _)))))).
  - eapply server_inv_reachable.
    apply (demo_reachable_built).
  - by vm_compute.
  - reflexivity.
  - reflexivity.
Defined.

(** On the demo server, [add_project] for [/home/me/proj] a second
    time, when the worker has popped the timer of the first call and is
    about to call [build]: the call raises, and no timer is pending. *)
Lemma add_project_again_during_build_call_raises_witness :
  Demo.calling_server
  = Demo.worker_steps 2
      (Demo.add "/home/me/proj" (Demo.mkCfg ["true_cmd"] 5)
                (Demo.worker_steps 3 Demo.server0)).2
  /\ (Demo.add "/home/me/proj" (Demo.mkCfg ["make"] 2) Demo.calling_server).1
     = inl ValueError
  /\ pending_timers "proj"
       (Demo.add "/home/me/proj" (Demo.mkCfg ["make"] 2) Demo.calling_server).2
     = [].
Proof.
  split; [reflexivity|].
  destruct (add_project_again_during_build_call_raises
              Demo.ProjectConfig Demo.cfg_timeout "/home/me/proj"
              (Demo.mkCfg ["make"] 2) Demo.calling_server (mkEvent 0 1 "proj"))
    as (w & _ & _ & Hadd & _ & Hpend & _).
  - eapply server_inv_reachable. apply demo_reachable_calling.
  - reflexivity.
  - reflexivity.
  - split; [|exact Hpend]. unfold Demo.add. by rewrite Hadd.
Defined.

(** After a project is added to the demo server, one timer is pending
    for it. *)
Lemma at_most_one_pending_timer_witness :
  length (pending_timers "proj"
            (Demo.add "/home/me/proj" (Demo.mkCfg ["true_cmd"] 5)
                      Demo.server0).2) <= 1.
Proof.
  refine (proj2 (proj1 (at_most_one_pending_timer
                          Demo.ProjectConfig Demo.cfg_script Demo.cfg_timeout
                          Demo.local) 0%Z [] _ _) "proj").
  eapply reachable_step; [apply reachable_init|].
  apply step_add_project.
Defined.

(** A build of an empty script takes the worker thread down: the status
    [(True, None)] makes [_show_notification] raise inside the action. *)
Lemma empty_script_build_kills_worker :
  worker (_scheduler
            (Demo.worker_steps 6
               (Demo.add "/home/me/proj" (Demo.mkCfg [] 5)
                         (Demo.worker_steps 3 Demo.server0)).2))
  = Died.
Proof. by vm_compute. Qed.

(** * Further properties *)

(** ** Project names *)

Lemma rfind_ge (c : ascii) (p : string) : (-1 <= rfind c p)%Z.
Proof.
  induction p as [|a rest IH]; simpl; [lia|].
  destruct (0 <=? rfind c rest)%Z eqn:E; [lia|]. case_decide; lia.
Qed.

Lemma rfind_none (c : ascii) (p : string) :
  rfind c p = (-1)%Z <-> contains c p = false.
Proof.
  induction p as [|a rest IH]; simpl; [done|].
  pose proof (rfind_ge c rest) as Hge.
  destruct (0 <=? rfind c rest)%Z eqn:E.
  - apply Z.leb_le in E. split; [intros; lia|]. intros H.
    apply orb_false_iff in H as [_ H]. apply IH in H. lia.
  - apply Z.leb_gt in E. assert (rfind c rest = (-1)%Z) as Hr by lia.
    apply IH in Hr. rewrite Hr, orb_false_r.
    case_decide; [rewrite bool_decide_eq_true_2 by done
                 |rewrite bool_decide_eq_false_2 by done]; done.
Qed.

Lemma rfind_app (c : ascii) (a b : string) :
  rfind c (a +:+ b)
  = if (0 <=? rfind c b)%Z then (Z.of_nat (String.length a) + rfind c b)%Z
    else rfind c a.
Proof.
  induction a as [|x a IH]; simpl.
  - change ("" +:+ b) with b.
    destruct (0 <=? rfind c b)%Z eqn:E; [lia|].
    apply Z.leb_gt in E. pose proof (rfind_ge c b). lia.
  - rewrite IH. destruct (0 <=? rfind c b)%Z eqn:E; [|done].
    apply Z.leb_le in E.
    destruct (0 <=? Z.of_nat (String.length a) + rfind c b)%Z eqn:E2; [lia|].
    apply Z.leb_gt in E2. lia.
Qed.

Lemma string_from_app (a b : string) (k : nat) :
  string_from (String.length a + k) (a +:+ b) = string_from k b.
Proof. induction a as [|x a IH]; simpl; done. Qed.

Lemma basename_no_slash (p : string) :
  contains "/" (basename p) = false.
Proof.
  unfold basename. induction p as [|a rest IH]; simpl; [done|].
  pose proof (rfind_ge "/" rest) as Hge.
  destruct (0 <=? rfind "/" rest)%Z eqn:E.
  - apply Z.leb_le in E.
    replace (Z.to_nat (rfind "/" rest + 1 + 1))
      with (S (Z.to_nat (rfind "/" rest + 1))) by lia.
    exact IH.
  - apply Z.leb_gt in E. assert (rfind "/" rest = (-1)%Z) as Hr by lia.
    apply rfind_none in Hr. case_decide; simpl.
    + exact Hr.
    + by rewrite Hr, bool_decide_eq_false_2.
Qed.

Lemma basename_of_joined (dir nm : string) :
  contains "/" nm = false -> basename (dir +:+ "/" +:+ nm) = nm.
Proof.
  intros Hnm. unfold basename.
  rewrite rfind_app. simpl rfind. change ("" +:+ nm) with nm.
  apply rfind_none in Hnm. rewrite Hnm. simpl.
  replace (Z.to_nat (Z.of_nat (String.length dir) + 0 + 1))
    with (String.length dir + 1) by lia.
  by rewrite string_from_app.
Qed.

(** X1.  The project name of [<dir>/<name>] is [<name>], whatever the
    directory part, when [<name>] holds no slash. *)
Theorem get_project_name_of_joined_path (dir nm : string) :
  contains "/" nm = false ->
  get_project_name (dir +:+ "/" +:+ nm) = nm.
Proof. apply basename_of_joined. Qed.

Lemma get_project_name_of_joined_path_witness :
  get_project_name ("/home/me" +:+ "/" +:+ "proj") = "proj".
Proof.
  apply (get_project_name_of_joined_path "/home/me" "proj"). reflexivity.
Defined.

(** X2.  A project name never holds a slash, and a working directory
    written with a trailing slash has the empty name: all such
    directories are one project to the registry. *)
Theorem get_project_name_edge_cases :
  (forall working_dir, contains "/" (get_project_name working_dir) = false)
  /\ (forall dir, get_project_name (dir +:+ "/") = "")
  /\ (forall dir1 dir2,
        get_project_name (dir1 +:+ "/") = get_project_name (dir2 +:+ "/")).
Proof.
  assert (forall dir, get_project_name (dir +:+ "/") = "") as H.
  { intros dir. by apply (basename_of_joined dir ""). }
  split; [apply basename_no_slash|]. split; [done|].
  intros dir1 dir2. by rewrite !H.
Qed.

(** ** The project directory search, again *)

Section FindProjectMore.
Variable abspath : string -> Path.
Variable listdir : Path -> option (list string).

Lemma search_up_returned_head fuel (lf : gset string) (d r : Path) listed :
  search_up listdir fuel lf d = (Returned r, listed) ->
  d <> [] /\ exists rest, listed = d :: rest.
Proof.
  destruct fuel as [|fuel]; simpl; [done|].
  destruct (decide (parent d <> d)) as [Hne|]; [|done].
  assert (d <> []) by (intros ->; by apply Hne).
  destruct (listdir d) as [items|]; [|done].
  destruct (existsb _ items); [intros [= <- <-]; eauto|].
  destruct (search_up listdir fuel lf (parent d)) as [r' l'].
  intros [= -> <-]. eauto.
Qed.

(** The result of the loop for a directory it has passed through. *)
Lemma search_up_from_listed fuel (lf : gset string) (d r d' : Path) listed :
  search_up listdir fuel lf d = (Returned r, listed) ->
  d' ∈ listed ->
  exists listed', search_up listdir (S (length d')) lf d' = (Returned r, listed').
Proof.
  revert d d' listed.
  induction fuel as [|fuel IH]; intros d d' listed; [done|].
  intros Hrun Hin. simpl in Hrun.
  destruct (decide (parent d <> d)) as [Hne|]; [|done].
  destruct (listdir d) as [items|] eqn:Hl; [|done].
  destruct (existsb _ items) eqn:Hex.
  - simplify_eq. apply list_elem_of_singleton in Hin as ->.
    simpl. rewrite decide_True by done. rewrite Hl, Hex. eauto.
  - destruct (search_up listdir fuel lf (parent d)) as [r' l'] eqn:Hrec.
    simplify_eq. apply elem_of_cons in Hin as [->|Hin]; [|by eapply IH].
    destruct (search_up_returned_head _ _ _ _ _ Hrec) as [Hp [rest ->]].
    destruct (IH (parent d) (parent d) (parent d :: rest) Hrec)
      as [l2 Hl2]; [by left|].
    assert (length d = S (length (parent d))) as Hlen.
    { rewrite length_parent. destruct d; [done | simpl; lia]. }
    simpl. rewrite decide_True by done. rewrite Hl, Hex.
    rewrite Hlen. rewrite Hl2. eauto.
Qed.

(** X3.  The directory the search returns is one of those it listed,
    and the search started from any directory it listed on the way, the
    returned one included, returns the same directory. *)
Theorem find_project_directory_from_listed start look_for r :
  find_project_directory abspath listdir start look_for = Some (inr r) ->
  r ∈ (find_project_directory_listing abspath listdir start look_for).2
  /\ forall start',
      abspath start'
        ∈ (find_project_directory_listing abspath listdir start look_for).2 ->
      find_project_directory abspath listdir start' look_for = Some (inr r).
Proof.
  intros Hfind.
  unfold find_project_directory, find_project_directory_listing in *.
  cbv zeta in *.
  destruct (search_up listdir _ (indicators look_for) (abspath start))
    as [[d| | |] listed] eqn:Hrun; simpl in Hfind; [|done..].
  injection Hfind as ->. cbn [snd]. split.
  - pose proof (search_up_spec listdir (indicators look_for) _ (abspath start)
                  (Nat.lt_succ_diag_r _)) as Hspec.
    rewrite Hrun in Hspec. destruct Hspec as (before & -> & _).
    apply elem_of_app. right. by apply list_elem_of_singleton.
  - intros start' Hin.
    destruct (search_up_from_listed _ _ _ _ _ _ Hrun Hin) as [l' Hl'].
    by rewrite Hl'.
Qed.

End FindProjectMore.

Lemma find_project_directory_from_listed_witness :
  find_project_directory Demo.abspath Demo.listdir "/home/me/proj/src" None
  = Some (inr ["home"; "me"; "proj"]).
Proof.
  refine (proj2 (find_project_directory_from_listed Demo.abspath Demo.listdir
                   "/home/me/proj/src/a" None ["home"; "me"; "proj"] _)
                "/home/me/proj/src" _).
  - reflexivity.
  - vm_compute. right. left.
Defined.

(** ** The build runner and [build], again *)

Section BuilderMore.
Context {World : Type}.
Variable local : string -> string -> World -> LocalResult * World.

Lemma script_loop_status wd script r0 w b res w' :
  script_loop local wd script true r0 w = ((b, res), w') ->
  match script with
  | [] => res = r0 /\ b = true /\ w' = w
  | _ :: _ => exists r, res = Some r /\ b = succeeded r
  end.
Proof.
  revert r0 w. induction script as [|c rest IH]; intros r0 w; simpl.
  - by intros [= <- <- <-].
  - destruct (local wd c w) as [r w1]. destruct (succeeded r) eqn:Hr; simpl.
    + intros Hrun. specialize (IH _ _ Hrun). destruct rest.
      * destruct IH as (-> & -> & _). eauto.
      * done.
    + intros [= <- <- <-]. eauto.
Qed.

(** X4.  The status the runner returns is consistent: it carries no
    result exactly when the script is empty (and then reports success
    on an untouched machine), and otherwise its flag is the [succeeded]
    attribute of the result it carries. *)
Theorem execute_script_status_is_consistent wd script w :
  let '((b, res), w') := execute_script local wd script w in
  (res = None <-> script = [])
  /\ (script = [] -> b = true /\ w' = w)
  /\ (forall r, res = Some r -> b = succeeded r).
Proof.
  destruct (execute_script local wd script w) as [[b res] w'] eqn:Hrun.
  apply script_loop_status in Hrun. destruct script as [|c rest].
  - destruct Hrun as (-> & -> & ->). by repeat split.
  - destruct Hrun as (r & -> & ->). repeat split; try done.
    by intros r' [= ->].
Qed.

End BuilderMore.

Section BuildMore.
Context {Config World : Type}.
Variable config_script : Config -> list string.
Variable local : string -> string -> World -> LocalResult * World.

Lemma build_nonempty_script (w : ProjectWatcher Config) (wld : World) :
  script config_script w <> [] ->
  exists b r wld',
    execute_script local (working_dir w) (script config_script w) wld
    = ((b, Some r), wld')
    /\ b = succeeded r
    /\ build config_script local w wld
       = (inr (notification_update (name w) b r),
          mkProjectWatcher None (name w) (working_dir w) (_config w)
                           (Some (b, Some r))
                           (notification_update (name w) b r) (_watch w),
          wld').
Proof.
  intros Hne. unfold build. simpl.
  destruct (execute_script local _ _ wld) as [[b res] wld'] eqn:Hrun.
  pose proof (script_loop_status local _ _ _ _ _ _ _ Hrun) as Hst.
  destruct (script config_script w) as [|c rest]; [done|].
  destruct Hst as (r & -> & ->). by exists (succeeded r), r, wld'.
Qed.

(** X5.  [build] on a watcher whose script is not empty never raises:
    it runs the script in the working directory, shows the notification
    made from the runner's status, stores that status and that
    notification, clears the timer handle and leaves the rest of the
    watcher alone. *)
Theorem build_shows_and_stores_the_status (w : ProjectWatcher Config)
    (wld : World) :
  script config_script w <> [] ->
  exists b r wld',
    execute_script local (working_dir w) (script config_script w) wld
    = ((b, Some r), wld')
    /\ b = succeeded r
    /\ build config_script local w wld
       = (inr (notification_update (name w) b r),
          mkProjectWatcher None (name w) (working_dir w) (_config w)
                           (Some (b, Some r))
                           (notification_update (name w) b r) (_watch w),
          wld').
Proof. apply build_nonempty_script. Qed.

(** X6.  [build] on a watcher whose script is empty raises
    [AttributeError]: the handle is cleared, no command is run, no
    notification is shown and the last status is not updated. *)
Theorem build_with_empty_script_raises (w : ProjectWatcher Config)
    (wld : World) :
  script config_script w = [] ->
  build config_script local w wld = (inl AttributeError, set_event None w, wld).
Proof.
  intros He. unfold build.
  change (script config_script (set_event None w)) with (script config_script w).
  by rewrite He.
Qed.

End BuildMore.

Lemma build_shows_and_stores_the_status_witness :
  exists n w' wld',
    build Demo.cfg_script Demo.local
      (mkProjectWatcher (Some (mkEvent 0 1 "proj")) "proj" "/home/me/proj"
         (Demo.mkCfg ["true_cmd"; "false_cmd"] 5) None
         (mkNotification "" "") (mkObservedWatch "/home/me/proj" true))
      [] = (inr n, w', wld').
Proof.
  destruct (build_shows_and_stores_the_status Demo.cfg_script Demo.local
              (mkProjectWatcher (Some (mkEvent 0 1 "proj")) "proj"
                 "/home/me/proj" (Demo.mkCfg ["true_cmd"; "false_cmd"] 5) None
                 (mkNotification "" "") (mkObservedWatch "/home/me/proj" true))
              []) as (b & r & wld' & Hrun & Hb & Hbuild).
  - discriminate.
  - eexists _, _, _. exact Hbuild.
Defined.

Lemma build_with_empty_script_raises_witness :
  build Demo.cfg_script Demo.local
    (mkProjectWatcher (Some (mkEvent 0 1 "proj")) "proj" "/home/me/proj"
       (Demo.mkCfg [] 5) None
       (mkNotification "" "") (mkObservedWatch "/home/me/proj" true))
    ["earlier"]
  = (inl AttributeError,
     mkProjectWatcher None "proj" "/home/me/proj" (Demo.mkCfg [] 5) None
       (mkNotification "" "") (mkObservedWatch "/home/me/proj" true),
     ["earlier"]).
Proof.
  apply (build_with_empty_script_raises Demo.cfg_script Demo.local).
  reflexivity.
Defined.

(** ** The notification text, again *)

Lemma contains_app (c : ascii) (a b : string) :
  contains c (a +:+ b) = (contains c a || contains c b)%bool.
Proof.
  induction a as [|x a IH]; [done|].
  change (String x a +:+ b) with (String x (a +:+ b)). simpl.
  by rewrite IH, orb_assoc.
Qed.

(** X7.  Whatever the build printed, the notification has the title
    ["<name> failed"] or ["<name> back to normal"] by the status flag,
    and its body is the stripped standard output, a line break and the
    stripped standard error.  The body therefore always holds a line
    break: it is never empty and never the text ["No output"]. *)
Theorem notification_body_always_holds_a_line_break nm succeeed r :
  notification_update nm succeeed r
  = mkNotification
      (nm +:+ (if succeeed then " back to normal" else " failed"))
      (strip (stdout r) +:+ NL +:+ strip (stderr r))
  /\ contains LF (body (notification_update nm succeeed r)) = true
  /\ body (notification_update nm succeeed r) <> ""
  /\ body (notification_update nm succeeed r) <> "No output".
Proof.
  assert (contains LF (body (notification_update nm succeeed r)) = true) as Hc.
  { rewrite notification_body_is_joined_output, !contains_app. simpl.
    by rewrite orb_true_r. }
  split; [|split; [done|split]].
  - unfold notification_update. simpl join.
    destruct succeeed; simpl; [done|].
    by destruct (strip (stdout r)).
  - intros He. by rewrite He in Hc.
  - intros He. by rewrite He in Hc.
Qed.

(** ** The scheduler, again *)

Lemma event_ltb_spec (a b : Event) :
  event_ltb a b = true
  <-> (time a < time b \/ (time a = time b /\ priority a < priority b))%Z.
Proof.
  unfold event_ltb.
  rewrite orb_true_iff, andb_true_iff, !Z.ltb_lt, Z.eqb_eq. tauto.
Qed.

Lemma event_ltb_false (a b : Event) :
  event_ltb a b = false
  <-> (time b < time a \/ (time a = time b /\ priority b <= priority a))%Z.
Proof.
  destruct (event_ltb a b) eqn:E.
  - apply event_ltb_spec in E. split; [done | lia].
  - split; [intros _ | done].
    destruct (decide (time b < time a
                      \/ (time a = time b /\ priority b <= priority a))%Z)
      as [H|H]; [done|].
    assert (event_ltb a b = true) as E' by (apply event_ltb_spec; lia).
    congruence.
Qed.

(** The top of the heap is a least event. *)
Lemma heap_top_least (q : list Event) e x :
  heap_top q = Some e -> x ∈ q -> event_ltb x e = false.
Proof.
  revert e. induction q as [|y rest IH]; intros e Htop Hx;
    [by apply elem_of_nil in Hx|].
  simpl in Htop. destruct (heap_top rest) as [m|] eqn:Hm.
  - destruct (event_ltb m y) eqn:Hmy; simplify_eq.
    + apply elem_of_cons in Hx as [->|Hx]; [|by apply IH].
      apply event_ltb_spec in Hmy. apply event_ltb_false. lia.
    + apply event_ltb_false in Hmy.
      apply elem_of_cons in Hx as [->|Hx]; [apply event_ltb_false; lia|].
      specialize (IH m eq_refl Hx). apply event_ltb_false in IH.
      apply event_ltb_false. lia.
  - simplify_eq. apply heap_top_None in Hm as ->.
    apply list_elem_of_singleton in Hx as ->. apply event_ltb_false. lia.
Qed.

(** X8.  When the worker starts calling an action, the event is one
    that was queued, it is due (its time is not after the clock), no
    queued event precedes it in (time, priority) order, and exactly that
    event has left the queue. *)
Theorem worker_calls_a_least_due_event (s s' : EventScheduler) e :
  worker_step s = Some s' ->
  worker s' = Calling e ->
  worker s = InRun
  /\ e ∈ _queue s
  /\ (time e <= now s')%Z
  /\ (forall x, x ∈ _queue s -> event_ltb x e = false)
  /\ _queue s ≡ₚ e :: _queue s'.
Proof.
  destruct s as [q fin j pc t]. unfold worker_step. simpl.
  destruct pc; try done.
  - destruct fin; intros [= <-]; done.
  - destruct (heap_top q) as [e'|] eqn:Htop; [|intros [= <-]; done].
    destruct (t <? time e')%Z eqn:Hlt; intros [= <-]; [done|].
    simpl. intros [= ->]. apply Z.ltb_ge in Hlt.
    split; [done|]. split; [by apply heap_top_elem|]. split; [done|].
    split; [intros x; by apply heap_top_least | by apply heappop_perm].
  - destruct fin; intros [= <-]; done.
Qed.

Lemma worker_calls_a_least_due_event_witness :
  (time (mkEvent 5 1 "proj") <= 7)%Z.
Proof.
  refine (proj1 (proj2 (proj2 (worker_calls_a_least_due_event
    (mkEventScheduler [mkEvent 9 1 "other"; mkEvent 5 1 "proj"]
                      false false InRun 7)
    (mkEventScheduler [mkEvent 9 1 "other"] false false
                      (Calling (mkEvent 5 1 "proj")) 7)
    (mkEvent 5 1 "proj") _ _)))); reflexivity.
Defined.

(** What the worker may still call: the queue, and the event whose
    action it is in the middle of calling. *)
Lemma worker_run_calls_in_order (raises : Event -> bool) fuel s :
  match worker s with
  | Calling e => forall x, x ∈ _queue s -> event_ltb x e = false
  | _ => True
  end ->
  StronglySorted (fun a b => event_ltb b a = false) (worker_run raises fuel s).2
  /\ (worker_run raises fuel s).2
     ⊆+ match worker s with
        | Calling e => e :: _queue s
        | _ => _queue s
        end.
Proof.
  revert s. induction fuel as [|fuel IH]; intros s Hs; simpl.
  { split; [constructor | apply submseteq_nil_l]. }
  destruct (worker s) as [| |e| | | |] eqn:Hpc.
  3: {
    specialize (IH (action_done (raises e) s)).
    assert (worker (action_done (raises e) s) <> Calling e
            /\ _queue (action_done (raises e) s) = _queue s
            /\ (worker (action_done (raises e) s) = InRun
                \/ worker (action_done (raises e) s) = Died)) as (_ & Hq & Hw).
    { unfold action_done. rewrite Hpc. by destruct (raises e); simpl; eauto. }
    destruct (worker_run raises fuel (action_done (raises e) s))
      as [s' called] eqn:Hrun. simpl in *.
    assert (StronglySorted (fun a b => event_ltb b a = false) called
            /\ called ⊆+ _queue s) as [Hsorted Hsub].
    { rewrite <- Hq. destruct Hw as [Hw|Hw]; rewrite Hw in IH; by apply IH. }
    split; [|by apply submseteq_skip].
    constructor; [done|]. apply Forall_forall. intros x Hx.
    apply Hs. eapply elem_of_submseteq; [exact Hx | exact Hsub]. }
  all: destruct (worker_step s) as [s1|] eqn:Hstep;
    [|split; [constructor | apply submseteq_nil_l]].
  all: destruct s as [q fin j pc t]; simpl in Hpc; subst pc;
    unfold worker_step in Hstep; simpl in Hstep; try done.
  - specialize (IH s1).
    destruct fin; simplify_eq; simpl in IH; by apply IH.
  - destruct (heap_top q) as [e|] eqn:Htop.
    + destruct (t <? time e)%Z; simplify_eq.
      * by apply (IH (mkEventScheduler q fin j InRun (time e))).
      * destruct (IH (mkEventScheduler (heappop q) fin j (Calling e) t))
          as [Hsorted Hsub]; simpl.
        { intros x Hx. eapply heap_top_least; [done|].
          eapply elem_of_before_removal; [by apply heappop_perm | done]. }
        split; [done|]. simpl in Hsub.
        by rewrite <- (heappop_perm q e Htop) in Hsub.
    + simplify_eq. by apply (IH (mkEventScheduler q fin j AfterRun t)).
  - specialize (IH s1).
    destruct fin; simpl in Hstep; simplify_eq; simpl in IH; by apply IH.
Qed.

(** X9.  A worker left alone calls the queued actions in (time,
    priority) order, and calls each queued timer at most once: the
    actions called are, counted with repetitions, among the timers that
    were in the queue. *)
Theorem worker_calls_each_timer_once_in_order (raises : Event -> bool)
    fuel s :
  (forall e, worker s <> Calling e) ->
  StronglySorted (fun a b => event_ltb b a = false) (worker_run raises fuel s).2
  /\ (worker_run raises fuel s).2 ⊆+ _queue s.
Proof.
  intros Hnc.
  pose proof (worker_run_calls_in_order raises fuel s) as H.
  destruct (worker s) eqn:Hpc; try (by apply H). by destruct (Hnc e).
Qed.

Lemma worker_calls_each_timer_once_in_order_witness :
  (worker_run Demo.never_raises 9
     (mkEventScheduler [mkEvent 9 1 "late"; mkEvent 5 1 "proj"]
                       false false InRun 0)).2
  ⊆+ [mkEvent 9 1 "late"; mkEvent 5 1 "proj"].
Proof.
  refine (proj2 (worker_calls_each_timer_once_in_order Demo.never_raises 9
    (mkEventScheduler [mkEvent 9 1 "late"; mkEvent 5 1 "proj"]
                      false false InRun 0) _)).
  discriminate.
Defined.

(** X10.  A timer armed while the worker is between leaving
    [sched.run()] and taking the condition goes unnoticed: the
    notification is lost, the worker goes to wait with the timer in the
    queue, and left alone it never calls it.  Only a later [notify], by
    another [schedule] or by [stop], brings the worker back to its loop
    test. *)
Theorem schedule_before_wait_is_not_noticed (raises : Event -> bool)
    event delay function s e s1 :
  worker s = AfterRun ->
  _is_finished s = false ->
  schedule event delay function s = (inr e, s1) ->
  e ∈ _queue s1
  /\ (forall fuel, 1 <= fuel ->
        worker_run raises fuel s1 = (set_worker Waiting s1, []))
  /\ worker_step (set_worker Waiting s1) = None
  /\ worker (notify (set_worker Waiting s1)) = AtWhile.
Proof.
  intros Hpc Hfin Hsch.
  assert (worker s1 = AfterRun /\ _is_finished s1 = false /\ e ∈ _queue s1)
    as (Hpc1 & Hfin1 & Hin).
  { destruct s as [q fin j pc t]. simpl in Hpc, Hfin. subst.
    unfold schedule, notify, cancel, enter in Hsch. simpl in Hsch.
    destruct event as [ev|].
    - destruct (remove_first ev q) as [q1|]; simplify_eq. simpl.
      repeat split. apply elem_of_app. right. by apply list_elem_of_singleton.
    - simplify_eq. simpl.
      repeat split. apply elem_of_app. right. by apply list_elem_of_singleton. }
  split; [done|]. split; [|split].
  - intros [|fuel] Hfuel; [lia|]. simpl. rewrite Hpc1.
    unfold worker_step at 1. rewrite Hpc1, Hfin1. simpl.
    destruct fuel; [done|]. simpl. done.
  - done.
  - done.
Qed.

Lemma schedule_before_wait_is_not_noticed_witness :
  worker_run Demo.never_raises 100
    (mkEventScheduler [mkEvent 3 1 "proj"] false false AfterRun 0)
  = (mkEventScheduler [mkEvent 3 1 "proj"] false false Waiting 0, []).
Proof.
  refine (proj1 (proj2 (schedule_before_wait_is_not_noticed Demo.never_raises
    None 3 "proj" (mkEventScheduler [] false false AfterRun 0)
    (mkEvent 3 1 "proj")
    (mkEventScheduler [mkEvent 3 1 "proj"] false false AfterRun 0) _ _ _))
    100 _); [reflexivity..|lia].
Defined.

(** X11.  What [schedule] does with a handle that is no longer in the
    queue, and after the worker has exited.  A stale handle makes it
    raise [ValueError] before anything is armed: the queue is as it
    was, and only the notification has happened.  After the worker has
    exited, [schedule] still works as before: given no handle, or a
    handle that is in the queue, it returns a new timer, due [delay]
    from now, and that timer is in the queue afterwards; but the worker
    stays exited and no action is ever called again, so the timer stays
    in the queue for good. *)
Theorem schedule_with_stale_handle_or_dead_worker (raises : Event -> bool)
    ev delay function s :
  (ev ∉ _queue s ->
   schedule (Some ev) delay function s = (inl ValueError, notify s)
   /\ _queue (notify s) = _queue s)
  /\ (worker s = Exited ->
      forall event r s1,
        schedule event delay function s = (r, s1) ->
        worker s1 = Exited
        /\ (forall fuel, worker_run raises fuel s1 = (s1, []))
        /\ (match event with
            | None => True
            | Some e0 => e0 ∈ _queue s
            end ->
            r = inr (mkEvent (now s + delay) 1 function))
        /\ (forall e, r = inr e ->
              e = mkEvent (now s + delay) 1 function
              /\ e ∈ _queue s1
              /\ forall fuel, e ∈ _queue (worker_run raises fuel s1).1)).
Proof.
  split.
  - intros Hnin. unfold schedule, cancel. rewrite notify_queue.
    apply remove_first_None in Hnin. by rewrite Hnin.
  - intros Hpc event r s1 Hsch.
    assert (worker s1 = Exited
            /\ (match event with
                | None => True
                | Some e0 => e0 ∈ _queue s
                end ->
                r = inr (mkEvent (now s + delay) 1 function))
            /\ (forall e, r = inr e ->
                  e = mkEvent (now s + delay) 1 function /\ e ∈ _queue s1))
      as (Hpc1 & Hok & Hin).
    { destruct s as [q fin j pc t]. simpl in Hpc. subst.
      unfold schedule, notify, cancel, enter in Hsch. simpl in Hsch.
      destruct event as [e0|].
      - destruct (remove_first e0 q) as [q1|] eqn:Hrm; simplify_eq; simpl.
        + split; [done|]. split; [done|]. intros e [= <-]. split; [done|].
          apply elem_of_app. right. by apply list_elem_of_singleton.
        + split; [done|]. split; [|done]. intros Hq.
          apply remove_first_None in Hrm. done.
      - simplify_eq. simpl.
        split; [done|]. split; [done|]. intros e [= <-]. split; [done|].
        apply elem_of_app. right. by apply list_elem_of_singleton. }
    split; [done|]. split; [intros fuel; by apply worker_run_exited|].
    split; [done|]. intros e He. destruct (Hin e He) as [-> Hq].
    split; [done|]. split; [done|]. intros fuel.
    by rewrite worker_run_exited.
Qed.

Lemma schedule_with_stale_handle_or_dead_worker_witness :
  schedule (Some (mkEvent 5 1 "proj")) 2 "proj"
    (mkEventScheduler [mkEvent 9 1 "other"] false false (Calling (mkEvent 5 1 "proj")) 5)
  = (inl ValueError,
     mkEventScheduler [mkEvent 9 1 "other"] false false (Calling (mkEvent 5 1 "proj")) 5)
  /\ mkEvent 9 1 "proj"
     ∈ _queue (schedule None 2 "proj"
                 (mkEventScheduler [] true true Exited 7)).2.
Proof.
  split.
  - refine (proj1 (proj1 (schedule_with_stale_handle_or_dead_worker
      Demo.never_raises (mkEvent 5 1 "proj") 2 "proj"
      (mkEventScheduler [mkEvent 9 1 "other"] false false
                        (Calling (mkEvent 5 1 "proj")) 5)) _)).
    intros Hin. apply list_elem_of_singleton in Hin. discriminate.
  - refine (proj1 (proj2 (proj2 (proj2 (proj2
      (proj2 (schedule_with_stale_handle_or_dead_worker
                Demo.never_raises (mkEvent 5 1 "proj") 2 "proj"
                (mkEventScheduler [] true true Exited 7))
         eq_refl None _ _ eq_refl)))
      (mkEvent 9 1 "proj") eq_refl))).
Defined.

(** ** Change events and registrations, again *)

Section ServerMore.
Context {UserConfig Config World : Type}.
Variable ProjectConfig : UserConfig -> Config.
Variable config_script : Config -> list string.
Variable config_build_timeout : Config -> Z.
Variable local : string -> string -> World -> LocalResult * World.

Local Abbreviation Server := (WatsonServer Config World).
Local Abbreviation Watcher := (ProjectWatcher Config).

Lemma server_eta (s : Server) :
  set_scheduler (_scheduler s) (set_projects (_projects s) s) = s.
Proof. by destruct s. Qed.

(** X12.  A change event that arrives after the worker has popped the
    project's timer and before [build] has cleared the handle is lost:
    [on_any_event] raises [ValueError] out of [sched.cancel], the server
    is exactly as it was, and no timer is pending for the project. *)
Theorem change_event_during_call_is_lost key e (s : Server) :
  server_inv s ->
  calling (_scheduler s) = Some e ->
  action e = key ->
  on_any_event config_build_timeout key s = (inl ValueError, s)
  /\ pending_timers key s = [].
Proof.
  intros Hinv Hc <-.
  destruct (inv_calling s Hinv e Hc) as (Hnil & w & Hw & He).
  split; [|done]. unfold on_any_event.
  pose proof (project_schedule_build_cases config_build_timeout
                (action e) None s) as Hcases.
  rewrite Hw in Hcases. simpl in Hcases. rewrite He in Hcases.
  assert (remove_first e (_queue (_scheduler s)) = None) as Hrm.
  { apply remove_first_None. intros Hin.
    assert (e ∈ pending_timers (action e) s) as Hp
      by (by apply list_elem_of_filter).
    rewrite Hnil in Hp. by apply elem_of_nil in Hp. }
  rewrite Hrm in Hcases. rewrite Hcases. f_equal.
  rewrite (insert_id _ _ _ Hw).
  assert (notify (_scheduler s) = _scheduler s) as ->.
  { apply calling_Some in Hc. unfold notify. by rewrite Hc. }
  apply server_eta.
Qed.

Lemma tick_inv d (s : Server) : server_inv s -> server_inv (tick d s).
Proof. intros Hinv. by apply (server_inv_ext s). Qed.

(** One change event, some time after the state [s]. *)
Lemma change_event_rearms key w d (s : Server) :
  server_inv s ->
  _projects s !! key = Some w ->
  (forall e, calling (_scheduler s) = Some e -> action e <> key) ->
  let s1 := (on_any_event config_build_timeout key (tick d s)).2 in
  server_inv s1
  /\ (exists w1, _projects s1 !! key = Some w1 /\ _config w1 = _config w)
  /\ calling (_scheduler s1) = calling (_scheduler s)
  /\ now (_scheduler s1) = (now (_scheduler s) + d)%Z
  /\ pending_timers key s1
     = [mkEvent (now (_scheduler s) + d + config_build_timeout (_config w)) 1 key]
  /\ forall k, k <> key -> pending_timers k s1 = pending_timers k s.
Proof.
  intros Hinv Hw Hnc s1.
  pose proof (tick_inv d s Hinv) as Hinv'.
  destruct (schedule_build_rearms config_build_timeout key None (tick d s) w Hinv')
    as (q1 & Hq1 & Heq & Hown & Hother); [done| |].
  { intros e0 He0.
    destruct (inv_handle s Hinv key w e0 Hw He0) as [Ha [Hin|Hc]]; [done|].
    by destruct (Hnc e0 Hc). }
  unfold s1, on_any_event. rewrite Heq. simpl snd.
  split; [|split; [|split; [|split; [|split]]]].
  - pose proof (server_inv_schedule_build config_build_timeout key None
                  (tick d s) Hinv') as H. by rewrite Heq in H.
  - eexists. rewrite armed_projects, lookup_insert_eq. done.
  - by rewrite armed_calling.
  - simpl. by rewrite notify_now.
  - exact Hown.
  - exact Hother.
Qed.

Lemma burst_cons_spec key rest : forall d w (s : Server),
  server_inv s ->
  _projects s !! key = Some w ->
  (forall e, calling (_scheduler s) = Some e -> action e <> key) ->
  let s' := burst config_build_timeout key (d :: rest) s in
  let t_last := (now (_scheduler s) + foldr Z.add 0 (d :: rest))%Z in
  server_inv s'
  /\ now (_scheduler s') = t_last
  /\ pending_timers key s'
     = [mkEvent (t_last + config_build_timeout (_config w)) 1 key]
  /\ forall k, k <> key -> pending_timers k s' = pending_timers k s.
Proof.
  induction rest as [|d2 rest IH]; intros d w s Hinv Hw Hnc.
  - destruct (change_event_rearms key w d s Hinv Hw Hnc)
      as (Hinv1 & _ & _ & Hnow & Hown & Hother).
    simpl. rewrite Z.add_0_r. done.
  - destruct (change_event_rearms key w d s Hinv Hw Hnc)
      as (Hinv1 & (w1 & Hw1 & Hcfg) & Hc1 & Hnow & Hown & Hother).
    assert (forall e, calling (_scheduler (on_any_event config_build_timeout
                         key (tick d s)).2) = Some e -> action e <> key)
      as Hnc1 by (by rewrite Hc1).
    destruct (IH d2 w1 _ Hinv1 Hw1 Hnc1) as (Hinv2 & Hnow2 & Hown2 & Hother2).
    change (burst config_build_timeout key (d :: d2 :: rest) s)
      with (burst config_build_timeout key (d2 :: rest)
              (on_any_event config_build_timeout key (tick d s)).2).
    split; [done|]. split; [|split].
    + rewrite Hnow2, Hnow. simpl. lia.
    + rewrite Hown2, Hnow, Hcfg. f_equal. f_equal. simpl. lia.
    + intros k Hk. by rewrite Hother2, Hother.
Qed.

(** X13.  Debounce: after a burst of change events for a registered
    project, however many and however spaced, exactly one timer is
    pending for it, due one configured delay after the last event of
    the burst; the timers of the other projects are as before.  (The
    worker is not in the middle of calling this project's build, and no
    timer fires during the burst.) *)
Theorem burst_leaves_one_timer_after_last_event key w gaps (s : Server) :
  server_inv s ->
  _projects s !! key = Some w ->
  (forall e, calling (_scheduler s) = Some e -> action e <> key) ->
  gaps <> [] ->
  let s' := burst config_build_timeout key gaps s in
  let t_last := (now (_scheduler s) + foldr Z.add 0 gaps)%Z in
  server_inv s'
  /\ now (_scheduler s') = t_last
  /\ pending_timers key s'
     = [mkEvent (t_last + config_build_timeout (_config w)) 1 key]
  /\ forall k, k <> key -> pending_timers k s' = pending_timers k s.
Proof.
  intros Hinv Hw Hnc Hne. destruct gaps as [|d rest]; [done|].
  by apply burst_cons_spec.
Qed.

Lemma scheduler_join_step fuel (s s1 : Server) :
  _join_event (_scheduler s) = false ->
  server_worker_step config_script local s = Some s1 ->
  scheduler_join config_script local (S fuel) s
  = scheduler_join config_script local fuel s1.
Proof. intros Hj Hs. simpl. unfold joined. by rewrite Hj, Hs. Qed.

Lemma scheduler_join_more fuel fuel' (s s' : Server) :
  scheduler_join config_script local fuel s = Some s' ->
  fuel <= fuel' ->
  scheduler_join config_script local fuel' s = Some s'.
Proof.
  revert fuel' s. induction fuel as [|fuel IH]; intros fuel' s Hrun Hle.
  - simpl in Hrun. destruct (joined (_scheduler s)) eqn:Hj; [|done].
    destruct fuel'; simpl; by rewrite Hj.
  - destruct fuel' as [|fuel']; [lia|]. simpl in Hrun |- *.
    destruct (joined (_scheduler s)); [done|].
    destruct (server_worker_step config_script local s) as [s1|]; [|done].
    apply IH; [done | lia].
Qed.

(** X14.  Once the worker thread has died, [shutdown] never returns:
    the join event is never set, so [self._scheduler.join()] blocks for
    good. *)
Theorem shutdown_never_returns_after_worker_died (s : Server) :
  worker (_scheduler s) = Died ->
  _join_event (_scheduler s) = false ->
  forall fuel, shutdown config_script local fuel s = None.
Proof.
  intros Hpc Hj fuel. unfold shutdown.
  assert (worker (_scheduler (shutdown_signal s)) = Died
          /\ _join_event (_scheduler (shutdown_signal s)) = false) as [Hpc' Hj'].
  { destruct s as [projs [q fin j pc t] obs api wld disp].
    simpl in Hpc, Hj. by subst. }
  generalize dependent (shutdown_signal s). intros s1 Hpc' Hj'.
  destruct fuel; simpl; unfold joined; rewrite Hj'; [done|].
  unfold server_worker_step, worker_step. by rewrite Hpc'.
Qed.

(** The worker of a server, inside [sched.run()] with the finished
    flag set, builds every project with a pending timer and exits. *)
Lemma server_drain n : forall s : Server,
  server_inv s ->
  length (_queue (_scheduler s)) = n ->
  worker (_scheduler s) = InRun ->
  _is_finished (_scheduler s) = true ->
  _join_event (_scheduler s) = false ->
  (forall key w, _projects s !! key = Some w -> script config_script w <> []) ->
  exists fuel s',
    scheduler_join config_script local fuel s = Some s'
    /\ worker (_scheduler s') = Exited
    /\ _queue (_scheduler s') = []
    /\ length (displayed s') = length (displayed s) + n
    /\ _observer s' = _observer s
    /\ api_closed s' = api_closed s.
Proof.
  induction n as [|n IH];
    intros [projs [q fin j pc t] obs api wld disp]; simpl;
    intros Hinv Hlen -> -> -> Hscripts.
  - apply nil_length_inv in Hlen as ->.
    exists 3. eexists. split; [reflexivity|]. simpl. repeat split. lia.
  - destruct (heap_top q) as [e|] eqn:Htop;
      [|apply heap_top_None in Htop; subst; done].
    set (t' := if (t <? time e)%Z then time e else t).
    set (s0 := mkWatsonServer projs (mkEventScheduler q true false InRun t)
                              obs api wld disp) in *.
    set (sb := mkWatsonServer projs
                 (mkEventScheduler (heappop q) true false (Calling e) t')
                 obs api wld disp).
    (* the way to the call of [e]: a sleep, if [e] is not due, and the pop *)
    assert (server_inv sb
            /\ forall f, scheduler_join config_script local (S (S f)) s0
                         = scheduler_join config_script local
                             (if (t <? time e)%Z then f else S f) sb)
      as [Hinvb Hjoinb].
    { unfold t', sb. destruct (t <? time e)%Z eqn:Hlt.
      - set (sa := mkWatsonServer projs
                     (mkEventScheduler q true false InRun (time e))
                     obs api wld disp).
        assert (server_worker_step config_script local s0 = Some sa) as H1.
        { unfold server_worker_step, worker_step. simpl. by rewrite Htop, Hlt. }
        assert (server_worker_step config_script local sa = Some
                  (mkWatsonServer projs
                     (mkEventScheduler (heappop q) true false (Calling e) (time e))
                     obs api wld disp)) as H2.
        { unfold server_worker_step, worker_step. simpl.
          by rewrite Htop, Z.ltb_irrefl. }
        split.
        + eapply server_inv_worker_step; [|exact H2].
          by eapply server_inv_worker_step.
        + intros f. rewrite (scheduler_join_step _ s0 sa) by done.
          by rewrite (scheduler_join_step _ sa _ eq_refl H2).
      - assert (server_worker_step config_script local s0 = Some
                  (mkWatsonServer projs
                     (mkEventScheduler (heappop q) true false (Calling e) t)
                     obs api wld disp)) as H1.
        { unfold server_worker_step, worker_step. simpl. by rewrite Htop, Hlt. }
        split; [by eapply server_inv_worker_step|].
        intros f. by rewrite (scheduler_join_step _ s0 _ eq_refl H1). }
    (* the call: the build of the watcher [e] belongs to *)
    destruct (inv_calling sb Hinvb e eq_refl) as (_ & w & Hw & _).
    simpl in Hw.
    destruct (build_nonempty_script config_script local w wld
                (Hscripts _ _ Hw)) as (b & r & wld' & _ & _ & Hbuild).
    set (w' := mkProjectWatcher _ _ _ _ _ _ _) in Hbuild.
    set (sc := mkWatsonServer (<[action e := w']> projs)
                 (mkEventScheduler (heappop q) true false InRun t')
                 obs api wld' (disp ++ [notification_update (name w) b r])).
    assert (server_worker_step config_script local sb = Some sc) as Hcall.
    { unfold server_worker_step, call_action. simpl. by rewrite Hw, Hbuild. }
    destruct (IH sc) as (fuel & s' & Hrun & Hexit & Hq & Hdisp & Hobs & Hapi);
      simpl; try done.
    { by eapply server_inv_worker_step. }
    { pose proof (heappop_perm q e Htop) as Hperm.
      apply Permutation_length in Hperm. simpl in Hperm. lia. }
    { intros key w1 Hw1. rewrite lookup_insert in Hw1.
      case_decide; simplify_eq; [|by eapply Hscripts].
      change (script config_script w <> []). by eapply Hscripts. }
    exists (S (S (S (S fuel)))), s'.
    split; [|repeat split; try done;
             rewrite Hdisp; simpl; rewrite length_app; simpl; lia].
    rewrite Hjoinb. apply (scheduler_join_more (S (S fuel)));
      [|destruct (t <? time e)%Z; lia].
    by rewrite (scheduler_join_step _ sb sc eq_refl Hcall),
               (scheduler_join_more fuel (S fuel) sc s') by (done || lia).
Qed.

Lemma scheduler_join_joined fuel : forall s s' : Server,
  scheduler_join config_script local fuel s = Some s' ->
  _join_event (_scheduler s') = true.
Proof.
  induction fuel as [|fuel IH]; intros s s' Hrun; simpl in Hrun;
    destruct (joined (_scheduler s)) eqn:Hj; simplify_eq; try done.
  destruct (server_worker_step config_script local s) as [s1|]; [|done].
  by eapply IH.
Qed.

(** What one step of the worker does to a server whose scripts are not
    empty: it finishes the build it was calling, which shows one
    notification, or it moves through its loop. *)
Lemma server_worker_step_cases (s s1 : Server) :
  server_inv s ->
  (forall key w, _projects s !! key = Some w -> script config_script w <> []) ->
  server_worker_step config_script local s = Some s1 ->
  (forall key w, _projects s1 !! key = Some w -> script config_script w <> [])
  /\ _observer s1 = _observer s
  /\ api_closed s1 = api_closed s
  /\ match worker (_scheduler s) with
     | Calling e =>
         _scheduler s1 = action_done false (_scheduler s)
         /\ exists n, displayed s1 = displayed s ++ [n]
     | _ =>
         worker_step (_scheduler s) = Some (_scheduler s1)
         /\ displayed s1 = displayed s
     end.
Proof.
  intros Hinv Hscripts Hstep. unfold server_worker_step in Hstep.
  destruct (worker (_scheduler s)) as [| |e| | | |] eqn:Hpc;
    try (destruct (worker_step (_scheduler s)) as [sch|]; [|done];
         simplify_eq; by repeat split).
  simplify_eq.
  destruct (inv_calling s Hinv e) as (_ & w & Hw & _);
    [by apply calling_Some|].
  destruct (build_nonempty_script config_script local w (world s)
              (Hscripts _ _ Hw)) as (b & r & wld' & _ & _ & Hbuild).
  unfold call_action. rewrite Hw, Hbuild. simpl.
  split; [|repeat split; eauto].
  intros key w1 Hw1. rewrite lookup_insert in Hw1.
  case_decide; simplify_eq; [|by eapply Hscripts].
  change (script config_script w <> []). by eapply Hscripts.
Qed.

(** The worker of a server moves as the worker of its scheduler does
    when no action raises, one notification shown for each call. *)
Lemma scheduler_join_simulation fuel : forall s s' : Server,
  server_inv s ->
  (forall key w, _projects s !! key = Some w -> script config_script w <> []) ->
  scheduler_join config_script local fuel s = Some s' ->
  exists n called,
    worker_run (fun _ => false) n (_scheduler s) = (_scheduler s', called)
    /\ length (displayed s') = length (displayed s) + length called.
Proof.
  induction fuel as [|fuel IH]; intros s s' Hinv Hscripts Hrun;
    simpl in Hrun; destruct (joined (_scheduler s)) eqn:Hj; simplify_eq;
    try (exists 0, []; simpl; split; [done | lia]).
  destruct (server_worker_step config_script local s) as [s1|] eqn:Hstep;
    [|done].
  destruct (server_worker_step_cases s s1 Hinv Hscripts Hstep)
    as (Hscripts1 & _ & _ & Hcase).
  destruct (IH s1 s' (server_inv_worker_step _ _ _ _ Hinv Hstep) Hscripts1 Hrun)
    as (n & called & Hw & Hdisp).
  destruct (worker (_scheduler s)) as [| |e| | | |] eqn:Hpc;
    try (destruct Hcase as [Hws Hd]; exists (S n), called;
         split; [simpl; by rewrite Hpc, Hws | by rewrite Hdisp, Hd]).
  destruct Hcase as [Hsch [note Hd]].
  exists (S n), (e :: called). split.
  - simpl. rewrite Hpc, <- Hsch, Hw. done.
  - rewrite Hdisp, Hd, length_app. simpl. lia.
Qed.

(** The drain of [server_drain], also from the middle of a build. *)
Lemma server_drain_from (s : Server) :
  server_inv s ->
  worker (_scheduler s) = InRun
  \/ (exists e0, worker (_scheduler s) = Calling e0) ->
  _is_finished (_scheduler s) = true ->
  _join_event (_scheduler s) = false ->
  (forall key w, _projects s !! key = Some w -> script config_script w <> []) ->
  exists fuel s',
    scheduler_join config_script local fuel s = Some s'
    /\ worker (_scheduler s') = Exited
    /\ _queue (_scheduler s') = []
    /\ length (displayed s')
       = length (displayed s)
         + length (option_list (calling (_scheduler s)) ++ _queue (_scheduler s))
    /\ _observer s' = _observer s
    /\ api_closed s' = api_closed s.
Proof.
  intros Hinv [Hpc|[e0 Hpc]] Hfin Hj Hscripts.
  - destruct (server_drain _ s Hinv eq_refl Hpc Hfin Hj Hscripts)
      as (fuel & s' & H1 & H2 & H3 & H4 & H5).
    exists fuel, s'. unfold calling. rewrite Hpc. simpl. done.
  - assert (is_Some (server_worker_step config_script local s)) as [s1 Hstep].
    { unfold server_worker_step. rewrite Hpc. eauto. }
    destruct (server_worker_step_cases s s1 Hinv Hscripts Hstep)
      as (Hscripts1 & Hobs1 & Hapi1 & Hcase).
    rewrite Hpc in Hcase. destruct Hcase as [Hsch [note Hd]].
    assert (_scheduler s1 = set_worker InRun (_scheduler s)) as Hsch1.
    { rewrite Hsch. unfold action_done. by rewrite Hpc. }
    destruct (server_drain _ s1 (server_inv_worker_step _ _ _ _ Hinv Hstep)
                eq_refl) as (fuel & s' & H1 & H2 & H3 & H4 & H5 & H6);
      try (rewrite Hsch1; simpl; done); [done|].
    exists (S fuel), s'.
    split; [by rewrite (scheduler_join_step _ s s1 Hj Hstep)|].
    split; [done|]. split; [done|]. split; [|by rewrite H5, H6].
    rewrite H4, Hd, Hsch1, length_app. unfold calling. rewrite Hpc.
    simpl. lia.
Qed.

(** C3, amended.  [stop] cancels nothing: it only sets the finished
    flag and wakes a waiting worker; the queue, the clock and the join
    event are as they were.  If at the [stop] call the worker is inside
    [sched.run()], at the head of its loop or in the middle of a
    callback, and no callback raises, it goes on until the queue is
    empty: the callback in progress is finished and the callback of
    every timer pending at the [stop] call is called, and only then
    does the worker set the join event and exit; a run that ends with
    the join event set has made all these calls.  If the worker is at
    its loop test, has just left [sched.run()] or is waiting, it exits
    without calling anything, the timers still in the queue.  On a
    server (whose scripts are not empty, so that no build raises)
    [shutdown] returns, and returns only in the state the worker has
    then reached: after one build for every timer that was pending and
    for the build in progress in the first case, at once and with
    nothing built in the second; in both the worker has exited and
    makes no further step, so nothing is built after the return. *)
Theorem stop_sets_flag_and_worker_finishes_run (raises : Event -> bool)
    (s : Server) :
  let sch := _scheduler s in
  let in_hand := option_list (calling sch) ++ _queue sch in
  (_queue (stop sch) = _queue sch
   /\ _is_finished (stop sch) = true
   /\ _join_event (stop sch) = _join_event sch
   /\ now (stop sch) = now sch
   /\ worker (stop sch)
      = if decide (worker sch = Waiting) then AtWhile else worker sch)
  /\ (_join_event sch = false ->
      worker sch = InRun \/ (exists e0, worker sch = Calling e0) ->
      (forall e, e ∈ in_hand -> raises e = false) ->
      exists fuel s' called,
        worker_run raises fuel (stop sch) = (s', called)
        /\ worker s' = Exited /\ _join_event s' = true /\ _queue s' = []
        /\ called ≡ₚ in_hand
        /\ (forall fuel', fuel <= fuel' ->
              worker_run raises fuel' (stop sch) = (s', called))
        /\ (forall fuel' s1 called1,
              worker_run raises fuel' (stop sch) = (s1, called1) ->
              _join_event s1 = true -> s1 = s' /\ called1 = called))
  /\ (_join_event sch = false ->
      worker sch = AtWhile \/ worker sch = AfterRun \/ worker sch = Waiting ->
      exists s',
        (forall fuel, 2 <= fuel -> worker_run raises fuel (stop sch) = (s', []))
        /\ worker s' = Exited /\ _join_event s' = true
        /\ _queue s' = _queue sch)
  /\ (server_inv s ->
      _join_event sch = false ->
      (forall key w, _projects s !! key = Some w ->
                     script config_script w <> []) ->
      worker sch = InRun \/ (exists e0, worker sch = Calling e0) ->
      exists fuel s' called,
        (forall fuel', fuel <= fuel' ->
                       shutdown config_script local fuel' s = Some s')
        /\ (forall fuel' s'',
              shutdown config_script local fuel' s = Some s'' -> s'' = s')
        /\ worker_run (fun _ => false) fuel (stop sch) = (_scheduler s', called)
        /\ called ≡ₚ in_hand
        /\ length (displayed s') = length (displayed s) + length in_hand
        /\ worker (_scheduler s') = Exited
        /\ _join_event (_scheduler s') = true
        /\ _queue (_scheduler s') = []
        /\ server_worker_step config_script local s' = None)
  /\ (_join_event sch = false ->
      worker sch = AtWhile \/ worker sch = AfterRun \/ worker sch = Waiting ->
      exists s',
        (forall fuel, 2 <= fuel ->
                      shutdown config_script local fuel s = Some s')
        /\ (forall fuel s'',
              shutdown config_script local fuel s = Some s'' -> s'' = s')
        /\ worker (_scheduler s') = Exited
        /\ _join_event (_scheduler s') = true
        /\ _queue (_scheduler s') = _queue sch
        /\ displayed s' = displayed s
        /\ world s' = world s
        /\ server_worker_step config_script local s' = None).
Proof.
  intros sch in_hand.
  assert (forall (s' s'' : Server) fuel fuel',
             (forall f, fuel <= f ->
                        shutdown config_script local f s = Some s') ->
             shutdown config_script local fuel' s = Some s'' -> s'' = s')
    as Hunique.
  { intros s' s'' fuel fuel' Hall Hone.
    pose proof (Hall (fuel `max` fuel') ltac:(lia)) as H1.
    unfold shutdown in *.
    rewrite (scheduler_join_more fuel' (fuel `max` fuel') _ s'' Hone) in H1
      by lia.
    by simplify_eq. }
  assert (_queue (stop sch) = _queue sch
          /\ _is_finished (stop sch) = true
          /\ _join_event (stop sch) = _join_event sch
          /\ now (stop sch) = now sch
          /\ worker (stop sch)
             = (if decide (worker sch = Waiting) then AtWhile else worker sch)
          /\ calling (stop sch) = calling sch)
    as (Hsq & Hsf & Hsj & Hsn & Hsw & Hsc).
  { destruct sch as [q fin j pc t]. unfold stop, notify, calling. simpl.
    destruct pc; simpl; repeat split; by case_decide. }
  assert (worker sch = InRun \/ (exists e0, worker sch = Calling e0) ->
          worker (stop sch) = InRun
          \/ (exists e0, worker (stop sch) = Calling e0)) as Hin.
  { rewrite Hsw. intros [H|[e0 H]]; rewrite H; case_decide; eauto; done. }
  split; [done|]. split; [|split; [|split]].
  - intros Hj Hpc Hok.
    destruct (worker_drains_queue_from raises (stop sch) (Hin Hpc) Hsf)
      as (fuel & s' & called & Hrun & Hexit & Hjoin & Hq & Hcalled).
    { by rewrite Hsc, Hsq. }
    rewrite Hsc, Hsq in Hcalled.
    exists fuel, s', called. repeat split; try done.
    + intros fuel' Hle. by eapply worker_run_more.
    + assert (worker s1 = Exited) as Hexit1.
      { eapply worker_run_joined; [|exact H|exact H0]. by rewrite Hsj. }
      pose proof (worker_run_more raises _ (fuel `max` fuel') _ _ _ Hrun Hexit
                    ltac:(lia)) as H1.
      pose proof (worker_run_more raises _ (fuel `max` fuel') _ _ _ H Hexit1
                    ltac:(lia)) as H2.
      congruence.
    + assert (worker s1 = Exited) as Hexit1.
      { eapply worker_run_joined; [|exact H|exact H0]. by rewrite Hsj. }
      pose proof (worker_run_more raises _ (fuel `max` fuel') _ _ _ Hrun Hexit
                    ltac:(lia)) as H1.
      pose proof (worker_run_more raises _ (fuel `max` fuel') _ _ _ H Hexit1
                    ltac:(lia)) as H2.
      congruence.
  - intros Hj Hpc. unfold sch in *. clear Hunique Hin.
    destruct (_scheduler s) as [q fin j pc t]. simpl in Hpc, Hj.
    exists (mkEventScheduler q true true Exited t). split; [|done].
    intros fuel Hfuel.
    destruct fuel as [|[|fuel]]; [lia..|].
    destruct Hpc as [->|[->| ->]]; simpl;
      unfold worker_step; simpl; try (unfold worker_step; simpl);
      by (destruct fuel; simpl; [|unfold worker_step; simpl]).
  - intros Hinv Hj Hscripts Hpc.
    assert (server_inv (shutdown_signal s)) as Hinv'.
    { apply (server_inv_ext s); simpl;
        [apply stop_queue | apply stop_calling | done..]. }
    destruct (server_drain_from (shutdown_signal s) Hinv' (Hin Hpc) Hsf)
      as (fuel & s' & Hrun & Hexit & Hq & Hdisp & _);
      [change (_join_event (stop sch) = false); by rewrite Hsj|done|].
    change (_scheduler (shutdown_signal s)) with (stop sch) in Hdisp.
    rewrite Hsc, Hsq in Hdisp. fold in_hand in Hdisp.
    change (displayed (shutdown_signal s)) with (displayed s) in Hdisp.
    destruct (scheduler_join_simulation _ _ _ Hinv' Hscripts Hrun)
      as (n & called & Hsim & _).
    change (_scheduler (shutdown_signal s)) with (stop sch) in Hsim.
    destruct (worker_drains_queue_from (fun _ => false) (stop sch) (Hin Hpc) Hsf)
      as (fuel2 & s2 & called2 & Hrun2 & Hexit2 & _ & _ & Hcalled2); [done|].
    rewrite Hsc, Hsq in Hcalled2. fold in_hand in Hcalled2.
    pose proof (worker_run_more _ _ (fuel `max` (n `max` fuel2)) _ _ _
                  Hsim Hexit ltac:(lia)) as H1.
    pose proof (worker_run_more _ _ (fuel `max` (n `max` fuel2)) _ _ _
                  Hrun2 Hexit2 ltac:(lia)) as H2.
    assert (forall f, fuel `max` (n `max` fuel2) <= f ->
                      shutdown config_script local f s = Some s') as Hall.
    { intros f Hle. unfold shutdown. eapply scheduler_join_more; [exact Hrun|lia]. }
    exists (fuel `max` (n `max` fuel2)), s', called.
    split; [done|]. split; [intros f s''; by apply Hunique with (fuel := fuel `max` (n `max` fuel2))|].
    split; [done|]. split; [congruence|]. split; [done|]. split; [done|].
    split; [by eapply scheduler_join_joined|]. split; [done|].
    unfold server_worker_step, worker_step. by rewrite Hexit.
  - intros Hj Hpc. unfold sch in *. clear Hin Hsq Hsf Hsj Hsn Hsw Hsc.
    destruct s as [projs [q fin j pc t] obs api wld disp].
    simpl in Hpc, Hj. subst j.
    set (s' := mkWatsonServer projs (mkEventScheduler q true true Exited t)
                              (observer_stop obs) true wld disp).
    assert (forall fuel, 2 <= fuel ->
              shutdown config_script local fuel
                (mkWatsonServer projs (mkEventScheduler q fin false pc t)
                                obs api wld disp) = Some s') as Hall.
    { intros [|[|fuel]] Hfuel; [lia..|].
      destruct Hpc as [->|[->| ->]]; unfold shutdown; simpl; by destruct fuel. }
    exists s'. split; [done|].
    split; [intros f s''; by apply Hunique with (fuel := 2)|]. done.
Qed.

(** X15.  [shutdown] on a server whose registered scripts are all
    non-empty.  If the worker is inside [sched.run()], at the head of
    its loop or in the middle of a build, [shutdown] returns after the
    build in progress and one build for every pending timer: each has
    shown its notification, the queue is empty and the worker has
    exited.  If the worker is at its loop test, has just left
    [sched.run()] or is waiting, [shutdown] returns at once: nothing is
    built, and the timers stay in the queue.  In both cases the control
    surface is closed and the observer stopped. *)
Theorem shutdown_returns_after_the_pending_builds (s : Server) :
  server_inv s ->
  _join_event (_scheduler s) = false ->
  (forall key w, _projects s !! key = Some w -> script config_script w <> []) ->
  (worker (_scheduler s) = InRun
   \/ (exists e0, worker (_scheduler s) = Calling e0) ->
   exists fuel s',
     (forall fuel', fuel <= fuel' ->
                    shutdown config_script local fuel' s = Some s')
     /\ worker (_scheduler s') = Exited
     /\ _queue (_scheduler s') = []
     /\ length (displayed s')
        = length (displayed s)
          + length (option_list (calling (_scheduler s))
                    ++ _queue (_scheduler s))
     /\ api_closed s' = true
     /\ observer_stopped (_observer s') = true)
  /\ (worker (_scheduler s) = AtWhile \/ worker (_scheduler s) = AfterRun
      \/ worker (_scheduler s) = Waiting ->
      exists s',
        (forall fuel, 2 <= fuel ->
                      shutdown config_script local fuel s = Some s')
        /\ worker (_scheduler s') = Exited
        /\ _queue (_scheduler s') = _queue (_scheduler s)
        /\ displayed s' = displayed s
        /\ world s' = world s
        /\ _projects s' = _projects s
        /\ api_closed s' = true
        /\ observer_stopped (_observer s') = true).
Proof.
  intros Hinv Hj Hscripts. split.
  - intros Hpc.
    destruct (server_drain_from (shutdown_signal s))
      as (fuel & s' & Hrun & Hexit & Hq & Hdisp & Hobs & Hapi).
    + apply (server_inv_ext s); simpl;
        [apply stop_queue | apply stop_calling | done..].
    + destruct s as [projs [q fin j pc t] obs api wld disp].
      simpl in Hpc. destruct Hpc as [->|[e0 ->]]; simpl; eauto.
    + destruct s as [projs [q fin j pc t] obs api wld disp].
      simpl. unfold stop, notify. simpl. by destruct pc.
    + destruct s as [projs [q fin j pc t] obs api wld disp].
      simpl in Hj. subst. simpl. unfold stop, notify. simpl. by destruct pc.
    + done.
    + exists fuel, s'. split; [|rewrite Hobs, Hapi].
      * intros fuel' Hle. unfold shutdown. by eapply scheduler_join_more.
      * split; [done|]. split; [done|]. split; [|done].
        rewrite Hdisp. simpl. by rewrite stop_queue, stop_calling.
  - intros Hpc. destruct s as [projs [q fin j pc t] obs api wld disp].
    simpl in Hpc, Hj. subst j.
    exists (mkWatsonServer projs (mkEventScheduler q true true Exited t)
                           (observer_stop obs) true wld disp).
    split; [|done]. intros [|[|fuel]] Hfuel; [lia..|].
    destruct Hpc as [->|[->| ->]]; unfold shutdown; simpl; by destruct fuel.
Qed.

Lemma registry_grows_refl (m : gmap string Watcher) : registry_grows m m.
Proof.
  intros key. destruct (m !! key) as [w|] eqn:Hw; [|done].
  exists w. by repeat split.
Qed.

Lemma registry_grows_trans (m1 m2 m3 : gmap string Watcher) :
  registry_grows m1 m2 -> registry_grows m2 m3 -> registry_grows m1 m3.
Proof.
  intros H12 H23 key. specialize (H12 key). specialize (H23 key).
  destruct (m1 !! key) as [w1|].
  - destruct H12 as (w2 & Hw2 & K12). rewrite Hw2 in H23.
    destruct H23 as (w3 & Hw3 & K23). exists w3. split; [done|].
    destruct K12 as (? & ? & ?), K23 as (? & ? & ?). repeat split; congruence.
  - destruct (m2 !! key) as [w2|]; [|done].
    destruct H23 as (w3 & Hw3 & K23). intros w' Hw'. simplify_eq.
    destruct (H12 w2 eq_refl) as (? & ? & ?), K23 as (Hn & Hd & Hwt).
    unfold well_registered. rewrite Hn, Hd, Hwt. done.
Qed.

Lemma registry_grows_update (m : gmap string Watcher) key w w' :
  m !! key = Some w -> kept w w' -> registry_grows m (<[key := w']> m).
Proof.
  intros Hw Hk k. rewrite lookup_insert. case_decide; subst.
  - rewrite Hw. eauto.
  - apply registry_grows_refl.
Qed.

Lemma registry_grows_fresh (m : gmap string Watcher) key w :
  m !! key = None -> well_registered key w ->
  registry_grows m (<[key := w]> m).
Proof.
  intros Hw Hk k. rewrite lookup_insert. case_decide; subst.
  - rewrite Hw. by intros w' [= <-].
  - apply registry_grows_refl.
Qed.

Lemma schedule_build_registry key timeout (s : Server) :
  registry_grows (_projects s)
    (_projects (project_schedule_build config_build_timeout key timeout s).2).
Proof.
  pose proof (project_schedule_build_cases config_build_timeout key timeout s)
    as Hc.
  destruct (_projects s !! key) as [w|] eqn:Hw;
    [|rewrite Hc; apply registry_grows_refl].
  simpl in Hc. destruct (_event w).
  - destruct (remove_first _ _); rewrite Hc; simpl;
      by apply (registry_grows_update _ _ w).
  - rewrite Hc. simpl. by apply (registry_grows_update _ _ w).
Qed.

Lemma step_registry (s s' : Server) :
  step ProjectConfig config_script config_build_timeout local s s' ->
  registry_grows (_projects s) (_projects s').
Proof.
  intros Hstep.
  destruct Hstep as [s d Hd|s s' H|s key|s key timeout|s key config
                    |s key w0 Hw0|s wd config|s];
    try apply registry_grows_refl.
  - unfold server_worker_step in H.
    destruct (worker (_scheduler s)) eqn:Hpc;
      try (destruct (worker_step (_scheduler s)); simplify_eq;
           apply registry_grows_refl).
    simplify_eq. unfold call_action.
    destruct (_projects s !! action e) as [w|] eqn:Hw;
      [|apply registry_grows_refl].
    pose proof (build_fields config_script local w (world s)) as Hb.
    destruct (build config_script local w (world s)) as [[r w'] wld'].
    simpl in *. apply (registry_grows_update _ _ w); [done|].
    unfold kept. tauto.
  - apply schedule_build_registry.
  - apply schedule_build_registry.
  - unfold project_set_config.
    destruct (_projects s !! key) as [w|] eqn:Hw;
      [|apply registry_grows_refl].
    by apply (registry_grows_update _ _ w).
  - unfold add_project.
    eapply registry_grows_trans; [|apply schedule_build_registry].
    destruct (_projects s !! get_project_name wd) as [w|] eqn:Hw.
    + by apply (registry_grows_update _ _ w).
    + by apply registry_grows_fresh.
Qed.

(** X16.  In every state the server can reach, a watcher is stored
    under its own name, that name is the last component of its working
    directory, and its watch is the recursive watch of that directory. *)
Theorem registered_watchers_are_well_registered t0 w0 (s : Server) key w :
  reachable ProjectConfig config_script config_build_timeout local t0 w0 s ->
  _projects s !! key = Some w ->
  name w = key
  /\ key = get_project_name (working_dir w)
  /\ _watch w = mkObservedWatch (working_dir w) true.
Proof.
  intros Hreach. revert key w.
  induction Hreach as [|s s' _ IH Hstep]; intros key w' Hw'; [done|].
  pose proof (step_registry s s' Hstep key) as Hg.
  destruct (_projects s !! key) as [w|] eqn:Hw; [|by apply Hg].
  destruct Hg as (w'' & Hw'' & Hn & Hd & Hwt). simplify_eq.
  destruct (IH key w Hw) as (? & ? & ?). rewrite Hn, Hd, Hwt. done.
Qed.

(** X17.  No sequence of steps removes a project from the registry or
    changes the name, the working directory or the watch of its
    watcher: not a new configuration, not a build, not [shutdown]. *)
Theorem steps_keep_every_watcher (s s' : Server) key w :
  rtc (step ProjectConfig config_script config_build_timeout local) s s' ->
  _projects s !! key = Some w ->
  exists w',
    _projects s' !! key = Some w'
    /\ name w' = name w
    /\ working_dir w' = working_dir w
    /\ _watch w' = _watch w.
Proof.
  intros Hsteps. revert w.
  induction Hsteps as [s|s s1 s' Hstep _ IH]; intros w Hw; [by eauto|].
  pose proof (step_registry s s1 Hstep key) as Hg. rewrite Hw in Hg.
  destruct Hg as (w1 & Hw1 & Hn & Hd & Hwt).
  destruct (IH w1 Hw1) as (w' & Hw' & Hn' & Hd' & Hwt').
  exists w'. repeat split; congruence.
Qed.

Lemma schedule_build_others key timeout (s : Server) k :
  k <> key ->
  _projects (project_schedule_build config_build_timeout key timeout s).2 !! k
  = _projects s !! k
  /\ (server_inv s ->
      pending_timers k
        (project_schedule_build config_build_timeout key timeout s).2
      = pending_timers k s).
Proof.
  intros Hk.
  pose proof (project_schedule_build_cases config_build_timeout key timeout s)
    as Hc.
  destruct (_projects s !! key) as [w|] eqn:Hw; [|by rewrite Hc].
  simpl in Hc. destruct (_event w) as [e0|] eqn:He0.
  - destruct (remove_first e0 (_queue (_scheduler s))) as [q1|] eqn:Hq1;
      rewrite Hc; simpl; (split; [by rewrite lookup_insert_ne|]); intros Hinv.
    + unfold pending_timers. rewrite armed_queue, filter_app.
      rewrite filter_cons_False
        by (simpl; rewrite (inv_name s Hinv key w Hw); congruence).
      rewrite app_nil_r. eapply filter_remove_first_other; [done|].
      destruct (inv_handle s Hinv key w e0 Hw He0) as [Ha _]. congruence.
    + unfold pending_timers. simpl. by rewrite notify_queue.
  - rewrite Hc. simpl. split; [by rewrite lookup_insert_ne|]. intros Hinv.
    unfold pending_timers. rewrite armed_queue, filter_app.
    rewrite filter_cons_False
      by (simpl; rewrite (inv_name s Hinv key w Hw); congruence).
    by rewrite app_nil_r.
Qed.

(** X18.  A change event or a registration for one project leaves the
    other projects alone, whether it succeeds or raises: their watchers
    are untouched, and so are their pending timers. *)
Theorem other_projects_are_left_alone working_dir config key (s : Server) k :
  (k <> key ->
   _projects (on_any_event config_build_timeout key s).2 !! k
   = _projects s !! k
   /\ (server_inv s ->
       pending_timers k (on_any_event config_build_timeout key s).2
       = pending_timers k s))
  /\ (k <> get_project_name working_dir ->
      _projects (add_project ProjectConfig config_build_timeout
                             working_dir config s).2 !! k
      = _projects s !! k
      /\ (server_inv s ->
          pending_timers k (add_project ProjectConfig config_build_timeout
                                        working_dir config s).2
          = pending_timers k s)).
Proof.
  split; [apply schedule_build_others|].
  intros Hk. unfold add_project.
  set (s1 := match _projects s !! get_project_name working_dir with
             | Some w => _
             | None => _
             end).
  destruct (schedule_build_others (get_project_name working_dir)
              (Some 0%Z) s1 k Hk) as [Hl Hp].
  assert (_projects s1 !! k = _projects s !! k
          /\ pending_timers k s1 = pending_timers k s
          /\ (server_inv s -> server_inv s1)) as (Hl1 & Hp1 & Hinv1).
  { unfold s1.
    destruct (_projects s !! get_project_name working_dir) as [w|] eqn:Hw.
    - simpl. split; [by rewrite lookup_insert_ne|]. split; [done|].
      intros Hinv. apply (server_inv_ext s); [done|done| |done]. simpl.
      intros k'. by eapply insert_same_view.
    - unfold ProjectWatcher_init, observer_schedule. simpl.
      split; [by rewrite lookup_insert_ne|]. split; [done|].
      intros Hinv. by apply server_inv_registered. }
  split; [by rewrite Hl|]. intros Hinv. by rewrite Hp, Hp1 by auto.
Qed.

End ServerMore.

(** ** The properties above on the demo server *)

Lemma change_event_during_call_is_lost_witness :
  on_any_event Demo.cfg_timeout "proj" Demo.calling_server
  = (inl ValueError, Demo.calling_server).
Proof.
  refine (proj1 (change_event_during_call_is_lost Demo.cfg_timeout "proj"
                   (mkEvent 0 1 "proj") Demo.calling_server _ _ _)).
  - eapply server_inv_reachable.
    apply demo_reachable_worker_steps, demo_reachable_registered.
  - reflexivity.
  - reflexivity.
Defined.

Lemma burst_leaves_one_timer_after_last_event_witness :
  pending_timers "proj" (burst Demo.cfg_timeout "proj" [1; 1; 1]%Z Demo.registered)
  = [mkEvent 8 1 "proj"].
Proof.
  refine (proj1 (proj2 (proj2 (burst_leaves_one_timer_after_last_event
    Demo.cfg_timeout "proj"
    (mkProjectWatcher (Some (mkEvent 0 1 "proj")) "proj" "/home/me/proj"
       (Demo.mkCfg ["true_cmd"] 5) None (mkNotification "" "")
       (mkObservedWatch "/home/me/proj" true))
    [1; 1; 1]%Z Demo.registered _ _ _ _)))).
  - eapply server_inv_reachable. apply demo_reachable_registered.
  - reflexivity.
  - discriminate.
  - discriminate.
Defined.

Lemma shutdown_never_returns_after_worker_died_witness :
  shutdown Demo.cfg_script Demo.local 1000 Demo.dead_server = None.
Proof.
  refine (shutdown_never_returns_after_worker_died Demo.cfg_script Demo.local
            Demo.dead_server _ _ 1000); reflexivity.
Defined.

Lemma demo_busy_scripts key w :
  _projects Demo.busy_server !! key = Some w ->
  script Demo.cfg_script w <> [].
Proof.
  assert (_projects Demo.busy_server
          = {["proj" := mkProjectWatcher (Some (mkEvent 5 1 "proj")) "proj"
                "/home/me/proj" (Demo.mkCfg ["true_cmd"] 5)
                (Some (true, Some (mkLocalResult "ran true_cmd" "" true)))
                (mkNotification "proj back to normal"
                                ("ran true_cmd" +:+ NL))
                (mkObservedWatch "/home/me/proj" true)]}) as ->
    by (by vm_compute).
  intros Hw. apply lookup_singleton_Some in Hw as [_ <-]. discriminate.
Qed.

Lemma demo_calling_scripts key w :
  _projects Demo.calling_server !! key = Some w ->
  script Demo.cfg_script w <> [].
Proof.
  assert (_projects Demo.calling_server
          = {["proj" := mkProjectWatcher (Some (mkEvent 0 1 "proj")) "proj"
                "/home/me/proj" (Demo.mkCfg ["true_cmd"] 5) None
                (mkNotification "" "")
                (mkObservedWatch "/home/me/proj" true)]}) as ->
    by (by vm_compute).
  intros Hw. apply lookup_singleton_Some in Hw as [_ <-]. discriminate.
Qed.

(** On the demo server with a build pending five ticks ahead and the
    worker in [sched.run()], and on the demo server whose worker is in
    the middle of the first build: [shutdown] returns after that
    build. *)
Lemma stop_sets_flag_and_worker_finishes_run_witness :
  (exists fuel s' called,
     shutdown Demo.cfg_script Demo.local fuel Demo.busy_server = Some s'
     /\ worker_run (fun _ => false) fuel (stop (_scheduler Demo.busy_server))
        = (_scheduler s', called)
     /\ called ≡ₚ [mkEvent 5 1 "proj"]
     /\ length (displayed s') = 2)
  /\ (exists fuel s' called,
     shutdown Demo.cfg_script Demo.local fuel Demo.calling_server = Some s'
     /\ worker_run (fun _ => false) fuel (stop (_scheduler Demo.calling_server))
        = (_scheduler s', called)
     /\ called ≡ₚ [mkEvent 0 1 "proj"]
     /\ length (displayed s') = 1).
Proof.
  split.
  - destruct (proj1 (proj2 (proj2 (proj2
                (stop_sets_flag_and_worker_finishes_run
                   Demo.cfg_script Demo.local Demo.never_raises
                   Demo.busy_server))))
                (server_inv_reachable _ _ _ _ _ _ _ demo_reachable_busy)
                eq_refl demo_busy_scripts (or_introl eq_refl))
      as (fuel & s' & called & Hrun & _ & Hsim & Hcalled & Hdisp & _).
    exists fuel, s', called.
    split; [by apply Hrun|]. split; [exact Hsim|].
    split; [exact Hcalled | exact Hdisp].
  - destruct (proj1 (proj2 (proj2 (proj2
                (stop_sets_flag_and_worker_finishes_run
                   Demo.cfg_script Demo.local Demo.never_raises
                   Demo.calling_server))))
                (server_inv_reachable _ _ _ _ _ _ _ demo_reachable_calling)
                eq_refl demo_calling_scripts
                (or_intror (ex_intro _ (mkEvent 0 1 "proj") eq_refl)))
      as (fuel & s' & called & Hrun & _ & Hsim & Hcalled & Hdisp & _).
    exists fuel, s', called.
    split; [by apply Hrun|]. split; [exact Hsim|].
    split; [exact Hcalled | exact Hdisp].
Defined.

Lemma shutdown_returns_after_the_pending_builds_witness :
  (exists fuel s',
     shutdown Demo.cfg_script Demo.local fuel Demo.busy_server = Some s'
     /\ length (displayed s') = 2)
  /\ (exists fuel s',
     shutdown Demo.cfg_script Demo.local fuel Demo.calling_server = Some s'
     /\ length (displayed s') = 1).
Proof.
  split.
  - destruct (proj1 (shutdown_returns_after_the_pending_builds
                       Demo.cfg_script Demo.local Demo.busy_server
                       (server_inv_reachable _ _ _ _ _ _ _ demo_reachable_busy)
                       eq_refl demo_busy_scripts)
                    (or_introl eq_refl))
      as (fuel & s' & Hrun & _ & _ & Hdisp & _).
    exists fuel, s'. split; [by apply Hrun | exact Hdisp].
  - destruct (proj1 (shutdown_returns_after_the_pending_builds
                       Demo.cfg_script Demo.local Demo.calling_server
                       (server_inv_reachable _ _ _ _ _ _ _ demo_reachable_calling)
                       eq_refl demo_calling_scripts)
                    (or_intror (ex_intro _ (mkEvent 0 1 "proj") eq_refl)))
      as (fuel & s' & Hrun & _ & _ & Hdisp & _).
    exists fuel, s'. split; [by apply Hrun | exact Hdisp].
Defined.

Lemma registered_watchers_are_well_registered_witness :
  "proj" = get_project_name "/home/me/proj".
Proof.
  refine (proj1 (proj2 (registered_watchers_are_well_registered
    Demo.ProjectConfig Demo.cfg_script Demo.cfg_timeout Demo.local 0%Z []
    Demo.registered "proj"
    (mkProjectWatcher (Some (mkEvent 0 1 "proj")) "proj" "/home/me/proj"
       (Demo.mkCfg ["true_cmd"] 5) None (mkNotification "" "")
       (mkObservedWatch "/home/me/proj" true))
    demo_reachable_registered _))).
  reflexivity.
Defined.

Lemma steps_keep_every_watcher_witness :
  exists w',
    _projects (shutdown_signal Demo.registered) !! "proj" = Some w'
    /\ working_dir w' = "/home/me/proj".
Proof.
  destruct (steps_keep_every_watcher
    Demo.ProjectConfig Demo.cfg_script Demo.cfg_timeout Demo.local
    Demo.registered (shutdown_signal Demo.registered) "proj"
    (mkProjectWatcher (Some (mkEvent 0 1 "proj")) "proj" "/home/me/proj"
       (Demo.mkCfg ["true_cmd"] 5) None (mkNotification "" "")
       (mkObservedWatch "/home/me/proj" true)))
    as (w' & Hw' & _ & Hd & _).
  - apply rtc_once, step_shutdown.
  - reflexivity.
  - exists w'. by split.
Defined.

(** ** A worker that is not told to stop *)

Section WorkerServes.
Variable raises : Event -> bool.







End WorkerServes.


Section DebounceFires.
Context {Config World : Type}.
Variable config_build_timeout : Config -> Z.
Variable raises : Event -> bool.





End DebounceFires.

